(** * djaodjin-multitier: sites and per-prefix URL resolution

    A shallow embedding of [multitier/models.py] and
    [multitier/urlresolvers.py], followed by the properties of the
    site registry, the domain validators, the route builder and the
    per-prefix reverse tables.

    Strings are Python text restricted to one-byte characters; Python
    dictionaries are [gmap]s, except Django's [MultiValueDict], kept as an
    association list so that insertion order stays visible. *)

From Stdlib Require Import Ascii String.
From stdpp Require Import gmap strings list.

(* ===================================================================== *)
(** * Part I: the program *)
(* ===================================================================== *)

(* --------------------------------------------------------------------- *)
(** ** [multitier/models.py] *)
(* --------------------------------------------------------------------- *)

Module models.

(** Python's [string.whitespace]: space, tab, line feed, carriage return,
    vertical tab, form feed. *)
Definition whitespace : list ascii :=
  [" "; "009"; "010"; "013"; "011"; "012"]%char.

(** [s in value] for a one-character string [s]. *)
Fixpoint contains (s : ascii) (value : string) : bool :=
  match value with
  | EmptyString => false
  | String c rest => Ascii.eqb s c || contains s rest
  end.

(** What calling a validator does: it returns, or it raises
    [ValidationError(message, code)]. *)
Inductive outcome :=
| Returns
| ValidationError (message code : string).

#[global] Instance outcome_eq_dec : EqDecision outcome.
Proof. solve_decision. Defined.

(** Python truthiness of a text value. *)
Definition truthy (value : string) : bool :=
  match value with EmptyString => false | String _ _ => true end.

Definition domain_name_validator (value : string) : outcome :=
  if negb (truthy value) then Returns
  else
    let checks := map (fun s => contains s value) whitespace in
    if existsb id checks
    then ValidationError
           "The domain name cannot contain any spaces or tabs." "invalid"
    else Returns.

(** *** Regular expressions

    The fragment of Python's [re] syntax that the [domain] pattern uses:
    character classes, concatenation, [*] and [+]. *)
Inductive regex :=
| Void
| Eps
| Class (accepts : ascii -> bool)
| Cat (r1 r2 : regex)
| Alt (r1 r2 : regex)
| Star (r : regex).

(** [r+] *)
Definition Plus (r : regex) : regex := Cat r (Star r).

Fixpoint nullable (r : regex) : bool :=
  match r with
  | Void => false
  | Eps => true
  | Class _ => false
  | Cat r1 r2 => nullable r1 && nullable r2
  | Alt r1 r2 => nullable r1 || nullable r2
  | Star _ => true
  end.

(** Brzozowski derivative: what is left of [r] once [c] is consumed. *)
Fixpoint deriv (c : ascii) (r : regex) : regex :=
  match r with
  | Void => Void
  | Eps => Void
  | Class accepts => if accepts c then Eps else Void
  | Cat r1 r2 =>
      if nullable r1
      then Alt (Cat (deriv c r1) r2) (deriv c r2)
      else Cat (deriv c r1) r2
  | Alt r1 r2 => Alt (deriv c r1) (deriv c r2)
  | Star r1 => Cat (deriv c r1) (Star r1)
  end.

(** [r] matches the whole of [s]. *)
Fixpoint fullmatch (r : regex) (s : list ascii) : bool :=
  match s with
  | [] => nullable r
  | c :: rest => fullmatch (deriv c r) rest
  end.

(** [re.match]: [r] matches some prefix of [s]. *)
Fixpoint match_ (r : regex) (s : list ascii) : bool :=
  nullable r ||
  match s with
  | [] => false
  | c :: rest => match_ (deriv c r) rest
  end.

(** [re.search]: [r] matches somewhere in [s]. *)
Fixpoint search (r : regex) (s : list ascii) : bool :=
  match_ r s ||
  match s with
  | [] => false
  | _ :: rest => search r rest
  end.

Definition in_range (lo hi c : ascii) : bool :=
  (nat_of_ascii lo <=? nat_of_ascii c) && (nat_of_ascii c <=? nat_of_ascii hi).

(** [[a-z0-9]] *)
Definition lower_alnum (c : ascii) : bool :=
  in_range "a" "z" c || in_range "0" "9" c.

(** [[a-z0-9\-]] *)
Definition lower_alnum_hyphen (c : ascii) : bool :=
  lower_alnum c || Ascii.eqb c "-".

(** [\.] *)
Definition dot (c : ascii) : bool := Ascii.eqb c ".".

(** [r'[a-z0-9][a-z0-9\-]*(\.[a-z0-9\-])+'] *)
Definition domain_regex : regex :=
  Cat (Class lower_alnum)
      (Cat (Star (Class lower_alnum_hyphen))
           (Plus (Cat (Class dot) (Class lower_alnum_hyphen)))).

(** Django's [RegexValidator(regex, message, code)]: the value is invalid
    when [regex.search(value)] finds nothing. *)
Definition RegexValidator (r : regex) (message code : string)
    (value : string) : outcome :=
  if search r (list_ascii_of_string value) then Returns
  else ValidationError message code.

(** Django's [MaxLengthValidator], which a [CharField] appends for its
    [max_length]. *)
Definition MaxLengthValidator (limit : nat) (value : string) : outcome :=
  if limit <? String.length value
  then ValidationError "Ensure this value has at most max_length characters."
         "max_length"
  else Returns.

(** The validators of the [Site.domain] field, in the order the field
    runs them. *)
Definition domain_validators : list (string -> outcome) :=
  [ domain_name_validator;
    RegexValidator domain_regex
      "Enter a valid 'domain', ex: example.com" "invalid";
    MaxLengthValidator 100 ].

(** Django's [Field.run_validators]: an empty value is not validated; every
    validator runs and the failures are collected.  The field accepts the
    value when the list is empty and raises it otherwise. *)
Definition run_validators (validators : list (string -> outcome))
    (value : string) : list outcome :=
  if negb (truthy value) then []
  else filter (fun o => o <> Returns) (map (fun v => v value) validators).

Definition domain_errors (value : string) : list outcome :=
  run_validators domain_validators value.

(** *** The [Site] model *)
Record Site := {
  pk : nat;
  domain : option string;
  slug : string;
  subdomain : string;
  theme : option string;
  base_id : option nat;
  is_active : bool;
  is_path_prefix : bool;
  (* set on the instance by the request layer, read by the resolver *)
  path_prefix : string
}.

(** The database backend decides how [domain] values compare, and where
    [NULL] goes: [domain_leb a b] says that [a] sorts no later than [b] in
    ascending order. *)
Class Backend := { domain_leb : option string -> option string -> bool }.

(** [order_by('-domain', '-pk')]: does [a] come no later than [b]? *)
Definition precedes `{Backend} (a b : Site) : bool :=
  if negb (domain_leb (domain a) (domain b)) then true
  else if negb (domain_leb (domain b) (domain a)) then false
  else pk b <=? pk a.

Fixpoint insert_by {A} (before : A -> A -> bool) (x : A) (l : list A)
    : list A :=
  match l with
  | [] => [x]
  | y :: rest =>
      if before x y then x :: y :: rest else y :: insert_by before x rest
  end.

(** [QuerySet.order_by], as a stable sort. *)
Definition order_by {A} (before : A -> A -> bool) (rows : list A) : list A :=
  foldr (insert_by before) [] rows.

(** [QuerySet.filter(subdomain=...)] *)
Definition filter_subdomain (sub : string) (rows : list Site) : list Site :=
  filter (fun s => subdomain s = sub) rows.

(** [QuerySet.first()] *)
Definition first {A} (rows : list A) : option A := head rows.

(** [rows] is the content of the site table. *)
Definition get_site_or_none `{Backend} (rows : list Site) (sub : string)
    : option Site :=
  first (order_by precedes (filter_subdomain sub rows)).

(** A backend that compares text by character code and puts [NULL] below
    every text, as SQLite and MySQL do. *)
Fixpoint string_leb (a b : string) : bool :=
  match a, b with
  | EmptyString, _ => true
  | String _ _, EmptyString => false
  | String x a', String y b' =>
      if nat_of_ascii x <? nat_of_ascii y then true
      else if nat_of_ascii y <? nat_of_ascii x then false
      else string_leb a' b'
  end.

Definition nulls_lowest : Backend :=
  {| domain_leb a b :=
       match a, b with
       | None, _ => true
       | Some _, None => false
       | Some x, Some y => string_leb x y
       end |}.

(** *** Methods of [Site] *)

(** Python truthiness of a nullable text column. *)
Definition truthy_text (value : option string) : bool :=
  match value with Some s => truthy s | None => false end.

(** Python truthiness of a nullable key: [None] and [0] are false. *)
Definition truthy_key (value : option nat) : bool :=
  match value with Some (S _) => true | _ => false end.

(** [self.base], the row the foreign key points to; [None] stands for the
    [DoesNotExist] the fetch raises when no row has that key. *)
Definition base (rows : list Site) (self : Site) : option Site :=
  List.find (fun s => pk s =? default 0 (base_id self)) rows.

(** [Site.as_base] *)
Definition as_base (rows : list Site) (self : Site) : option Site :=
  if truthy_key (base_id self) then base rows self else Some self.

(** [Site.as_subdomain] *)
Definition as_subdomain (self : Site) : string :=
  if truthy (subdomain self) then subdomain self else slug self.

(** [Site.is_alias], as the truth value of what the property returns. *)
Definition is_alias (rows : list Site) (self : Site) : option bool :=
  if truthy_key (base_id self) then
    match base rows self with
    | Some b => Some (bool_decide (subdomain self = slug b))
    | None => None
    end
  else Some false.

(** [Site.printable_name] *)
Definition printable_name (self : Site) : string :=
  if truthy (subdomain self) then subdomain self else slug self.

(** [Site.get_templates] *)
Definition get_templates (self : Site) : list string :=
  let result :=
    if truthy_text (theme self) then [default "" (theme self); slug self]
    else [slug self] in
  if truthy (subdomain self) then result ++ [subdomain self] else result.

End models.

(* --------------------------------------------------------------------- *)
(** ** [multitier/urlresolvers.py] *)
(* --------------------------------------------------------------------- *)

Module urlresolvers.

(** *** Reverse entries and Django's [MultiValueDict] *)

(** A reverse table is keyed by a view (the callback object, named here by
    its dotted path) or by a pattern name. *)
Inductive lookup_key :=
| ByCallback (callback : string)
| ByName (name : string).

#[global] Instance lookup_key_eq_dec : EqDecision lookup_key.
Proof. solve_decision. Defined.

(** The group structure Django's [regex_helper.normalize] computes from a
    pattern.  It is computed outside this package; an entry records which
    pattern it was computed from. *)
Inductive bits :=
| normalize (pattern : string).

(** [(bits, pattern, defaults)] *)
Definition entry : Type := bits * string * gmap string string.

(** Keys in insertion order, each with its list of values. *)
Definition MultiValueDict : Type := list (lookup_key * list entry).

Fixpoint appendlist (key : lookup_key) (value : entry) (d : MultiValueDict)
    : MultiValueDict :=
  match d with
  | [] => [(key, [value])]
  | (k, vs) :: rest =>
      if decide (k = key) then (k, vs ++ [value]) :: rest
      else (k, vs) :: appendlist key value rest
  end.

Fixpoint getlist (key : lookup_key) (d : MultiValueDict) : list entry :=
  match d with
  | [] => []
  | (k, vs) :: rest => if decide (k = key) then vs else getlist key rest
  end.

(** Iterating over the dictionary yields its keys. *)
Definition keys (d : MultiValueDict) : list lookup_key := map fst d.

(** *** The pattern graph *)

(** A resolver is a mutable object; patterns refer to it by address. *)
Definition ref : Type := nat.

(** Django's [RegexURLPattern], a leaf.  [pattern_regex] is
    [pattern.regex.pattern]. *)
Record RegexURLPattern := {
  pattern_regex : string;
  callback : string;
  default_args : gmap string string;
  name : option string;
  lookup_str : string
}.

Inductive url_pattern :=
| Pattern (p : RegexURLPattern)
| Resolver (r : ref).

Inductive resolver_class :=
| RegexURLResolver_class
| SiteRegexURLResolver_class.

(** [(prefix pattern, sub-resolver)] per namespace. *)
Abbreviation namespaces_t := (gmap string (string * ref)).
(** The namespaces of each application. *)
Abbreviation apps_t := (gmap string (list string)).

Record RegexURLResolver := {
  class : resolver_class;
  _regex : string;
  url_patterns : list url_pattern;
  namespace : option string;
  app_name : option string;
  default_kwargs : gmap string string;
  (* the three caches, keyed by path prefix *)
  _reverse_dict : gmap string MultiValueDict;
  _namespace_dict : gmap string namespaces_t;
  _app_dict : gmap string apps_t;
  _populated : bool;
  _callback_strs : gset string;
  (* [self._local.populating] of the running thread *)
  populating : bool
}.

Abbreviation heap := (gmap ref RegexURLResolver).

Definition set_populating (b : bool) (o : RegexURLResolver) : RegexURLResolver :=
  {| class := class o; _regex := _regex o; url_patterns := url_patterns o;
     namespace := namespace o; app_name := app_name o;
     default_kwargs := default_kwargs o;
     _reverse_dict := _reverse_dict o; _namespace_dict := _namespace_dict o;
     _app_dict := _app_dict o; _populated := _populated o;
     _callback_strs := _callback_strs o; populating := b |}.

Definition add_callback_strs (strs : gset string) (o : RegexURLResolver)
    : RegexURLResolver :=
  {| class := class o; _regex := _regex o; url_patterns := url_patterns o;
     namespace := namespace o; app_name := app_name o;
     default_kwargs := default_kwargs o;
     _reverse_dict := _reverse_dict o; _namespace_dict := _namespace_dict o;
     _app_dict := _app_dict o; _populated := _populated o;
     _callback_strs := _callback_strs o ∪ strs; populating := populating o |}.

(** The last five statements of [_populate]. *)
Definition store_tables (path_prefix : string) (lookups : MultiValueDict)
    (namespaces : namespaces_t) (apps : apps_t) (o : RegexURLResolver)
    : RegexURLResolver :=
  {| class := class o; _regex := _regex o; url_patterns := url_patterns o;
     namespace := namespace o; app_name := app_name o;
     default_kwargs := default_kwargs o;
     _reverse_dict := <[path_prefix := lookups]> (_reverse_dict o);
     _namespace_dict := <[path_prefix := namespaces]> (_namespace_dict o);
     _app_dict := <[path_prefix := apps]> (_app_dict o);
     _populated := true;
     _callback_strs := _callback_strs o; populating := false |}.

(** *** Computations over the heap of resolvers *)

Inductive error :=
| KeyError (key : string)
| ImproperlyConfigured (message : string)
| TypeError (message : string)
| ValueError (message : string)
| IndexError (message : string).

Inductive result (A : Type) :=
| Done (a : A) (h : heap)
| Raise (e : error) (h : heap)
| OutOfFuel
| Dangling.

Arguments Done {A} a h.
Arguments Raise {A} e h.
Arguments OutOfFuel {A}.
Arguments Dangling {A}.

Definition M (A : Type) : Type := heap -> result A.

Definition ret {A} (a : A) : M A := fun h => Done a h.

Definition bind {A B} (m : M A) (k : A -> M B) : M B :=
  fun h =>
    match m h with
    | Done a h' => k a h'
    | Raise e h' => Raise e h'
    | OutOfFuel => OutOfFuel
    | Dangling => Dangling
    end.

Notation "'let!' x ':=' m 'in' k" := (bind m (fun x => k))
  (at level 10, x pattern, m at level 100, k at level 200).

Definition raise {A} (e : error) : M A := fun h => Raise e h.

(** Read the object at [r]. *)
Definition get (r : ref) : M RegexURLResolver :=
  fun h => match h !! r with Some o => Done o h | None => Dangling end.

(** Update the object at [r] in place. *)
Definition modify (r : ref) (f : RegexURLResolver -> RegexURLResolver)
    : M unit :=
  fun h =>
    match h !! r with
    | Some o => Done tt (<[r := f o]> h)
    | None => Dangling
    end.

Definition truthy_opt (value : option string) : bool :=
  match value with Some s => models.truthy s | None => false end.

(** [p_pattern[1:]] when [p_pattern.startswith('^')] *)
Definition strip_caret (p_pattern : string) : string :=
  match p_pattern with
  | String c rest => if Ascii.eqb c "^" then rest else p_pattern
  | EmptyString => p_pattern
  end.

Section resolver.

(** [get_current_site()], the site of the running request, if any. *)
Variable current_site : option models.Site.

Definition _get_path_prefix : string :=
  match current_site with
  | Some site =>
      if models.truthy (models.path_prefix site) then models.path_prefix site
      else "_"
  | None => "_"
  end.

(** [SiteRegexURLResolver.regex], as the pattern it compiles. *)
Definition SiteRegexURLResolver_regex : string :=
  let path_prefix := _get_path_prefix in
  if decide (path_prefix <> "_") then "^" +:+ path_prefix +:+ "/"
  else "^".

(** [pattern.regex.pattern] of a resolver. *)
Definition regex_pattern (o : RegexURLResolver) : string :=
  match class o with
  | RegexURLResolver_class => _regex o
  | SiteRegexURLResolver_class => SiteRegexURLResolver_regex
  end.

Section populate_body.

(** The nested calls of [_populate]. *)
Variable populate : ref -> M unit.

Definition reverse_dict_with (self : ref) : M MultiValueDict :=
  let path_prefix := _get_path_prefix in
  let! o := get self in
  let! _ := (if decide (is_Some (_reverse_dict o !! path_prefix)) then ret tt
             else populate self) in
  let! o := get self in
  match _reverse_dict o !! path_prefix with
  | Some table => ret table
  | None => raise (KeyError path_prefix)
  end.

Definition namespace_dict_with (self : ref) : M namespaces_t :=
  let path_prefix := _get_path_prefix in
  let! o := get self in
  let! _ := (if decide (is_Some (_namespace_dict o !! path_prefix)) then ret tt
             else populate self) in
  let! o := get self in
  match _namespace_dict o !! path_prefix with
  | Some table => ret table
  | None => raise (KeyError path_prefix)
  end.

Definition app_dict_with (self : ref) : M apps_t :=
  let path_prefix := _get_path_prefix in
  let! o := get self in
  let! _ := (if decide (is_Some (_app_dict o !! path_prefix)) then ret tt
             else populate self) in
  let! o := get self in
  match _app_dict o !! path_prefix with
  | Some table => ret table
  | None => raise (KeyError path_prefix)
  end.

(** The tuple appended for one entry of an anonymous include. *)
Definition merged_entry (parent_pat p_pattern : string)
    (kw : gmap string string) (e : entry) : entry :=
  let '(_, pat, defaults) := e in
  (normalize (parent_pat +:+ pat), p_pattern +:+ pat, kw ∪ defaults).

(** [for name in pattern.reverse_dict: for ... in
    pattern.reverse_dict.getlist(name): lookups.appendlist(...)], over the
    remaining [names]; the property is evaluated again for every name. *)
Fixpoint merge_lookups (pattern : ref) (parent_pat p_pattern : string)
    (kw : gmap string string) (names : list lookup_key)
    (lookups : MultiValueDict) : M MultiValueDict :=
  match names with
  | [] => ret lookups
  | name :: names =>
      let! table := reverse_dict_with pattern in
      let lookups :=
        foldl (fun lk e =>
                 appendlist name (merged_entry parent_pat p_pattern kw e) lk)
              lookups (getlist name table) in
      merge_lookups pattern parent_pat p_pattern kw names lookups
  end.

(** [namespaces[namespace] = (p_pattern + prefix, sub_pattern)] for every
    item of the child's namespace table. *)
Definition merge_namespaces (p_pattern : string) (child namespaces : namespaces_t)
    : namespaces_t :=
  ((fun '(prefix, sub_pattern) => (p_pattern +:+ prefix, sub_pattern)) <$> child)
  ∪ namespaces.

(** [apps.setdefault(app_name, []).extend(namespace_list)] for every item of
    the child's application table. *)
Definition merge_apps (child apps : apps_t) : apps_t :=
  union_with (fun mine theirs => Some (mine ++ theirs)) apps child.

(** [apps.setdefault(app_name, []).append(namespace)] *)
Definition setdefault_append (app namespace : string) (apps : apps_t) : apps_t :=
  <[app := default [] (apps !! app) ++ [namespace]]> apps.

(** One iteration of the loop of [_populate]. *)
Definition visit (self : ref) (pattern : url_pattern)
    (acc : MultiValueDict * namespaces_t * apps_t)
    : M (MultiValueDict * namespaces_t * apps_t) :=
  let '(lookups, namespaces, apps) := acc in
  match pattern with
  | Pattern p =>
      let! _ := modify self (add_callback_strs {[lookup_str p]}) in
      let p_pattern := strip_caret (pattern_regex p) in
      let bits := normalize p_pattern in
      let lookups :=
        appendlist (ByCallback (callback p)) (bits, p_pattern, default_args p)
          lookups in
      let lookups :=
        match name p with
        | Some n => appendlist (ByName n) (bits, p_pattern, default_args p) lookups
        | None => lookups
        end in
      ret (lookups, namespaces, apps)
  | Resolver r =>
      let! o := get r in
      let p_pattern := strip_caret (regex_pattern o) in
      let! acc :=
        (if truthy_opt (namespace o) then
           let ns := default "" (namespace o) in
           let namespaces := <[ns := (p_pattern, r)]> namespaces in
           let apps :=
             if truthy_opt (app_name o)
             then setdefault_append (default "" (app_name o)) ns apps
             else apps in
           ret (lookups, namespaces, apps)
         else
           let parent_pat := regex_pattern o in
           let! table := reverse_dict_with r in
           let! lookups :=
             merge_lookups r parent_pat p_pattern (default_kwargs o)
               (keys table) lookups in
           let! child_namespaces := namespace_dict_with r in
           let namespaces :=
             merge_namespaces p_pattern child_namespaces namespaces in
           let! child_apps := app_dict_with r in
           let apps := merge_apps child_apps apps in
           ret (lookups, namespaces, apps)) in
      let! o := get r in
      let! _ := (if populating o then ret tt else populate r) in
      let! o := get r in
      let! _ := modify self (add_callback_strs (_callback_strs o)) in
      ret acc
  end.

(** [for pattern in patterns: ...] *)
Fixpoint loop (self : ref) (patterns : list url_pattern)
    (acc : MultiValueDict * namespaces_t * apps_t)
    : M (MultiValueDict * namespaces_t * apps_t) :=
  match patterns with
  | [] => ret acc
  | pattern :: rest =>
      let! acc := visit self pattern acc in
      loop self rest acc
  end.

(** [_populate] once past its guard. *)
Definition populate_body (self : ref) : M unit :=
  let! _ := modify self (set_populating true) in
  let path_prefix := _get_path_prefix in
  let! o := get self in
  let! (lookups, namespaces, apps) :=
    loop self (rev (url_patterns o)) ([], ∅, ∅) in
  modify self (store_tables path_prefix lookups namespaces apps).

End populate_body.

(** [RegexURLResolver._populate].  [fuel] bounds how deeply builds nest. *)
Fixpoint _populate (fuel : nat) (self : ref) : M unit :=
  let! o := get self in
  if populating o then ret tt
  else
    match fuel with
    | 0 => fun _ => OutOfFuel
    | S fuel' => populate_body (_populate fuel') self
    end.

Definition reverse_dict (fuel : nat) : ref -> M MultiValueDict :=
  reverse_dict_with (_populate fuel).

Definition namespace_dict (fuel : nat) : ref -> M namespaces_t :=
  namespace_dict_with (_populate fuel).

Definition app_dict (fuel : nat) : ref -> M apps_t :=
  app_dict_with (_populate fuel).

End resolver.

(** *** Route registration *)

(** The Python values a caller can pass as [view]. *)
#[warnings="-register-all"]
Inductive pyvalue :=
| PyNone
| PyStr (s : string)
| PyInt (n : Z)
| PyCallable (path : string)
| PyModule (name : string)
| PyList (items : list pyvalue)
| PyTuple (items : list pyvalue).

(** [bool(view)] *)
Definition py_truthy (v : pyvalue) : bool :=
  match v with
  | PyNone => false
  | PyStr s => models.truthy s
  | PyInt n => negb (n =? 0)%Z
  | PyCallable _ => true
  | PyModule _ => true
  | PyList items | PyTuple items =>
      match items with [] => false | _ :: _ => true end
  end.

(** The items of [view] when [isinstance(view, (list, tuple))]. *)
Definition list_or_tuple (v : pyvalue) : option (list pyvalue) :=
  match v with
  | PyList items | PyTuple items => Some items
  | _ => None
  end.

(** [callable(view)] *)
Definition callable (v : pyvalue) : bool :=
  match v with PyCallable _ => true | _ => false end.

(** What [url_sites] returns: the arguments the node was constructed with. *)
Inductive node :=
| RegexURLResolver_node (regex : string) (urlconf_name : pyvalue)
    (default_kwargs : option (gmap string string)) (app_name namespace : pyvalue)
| RegexURLPattern_node (regex : string) (view : pyvalue)
    (default_args : option (gmap string string)) (name : option string).

(** [%r] of a pattern, without escapes. *)
Definition repr (regex : string) : string := "'" +:+ regex +:+ "'".

(** The definition in force when [django.urls.resolvers.RegexPattern] can
    be imported. *)
Module with_RegexPattern.

Definition url_sites (regex : string) (view : pyvalue)
    (kwargs : option (gmap string string)) (name : option string)
    (prefix : string) : error + node :=
  if negb (py_truthy view) then
    inl (ImproperlyConfigured
           ("Empty URL pattern view name not permitted (for pattern "
            +:+ repr regex +:+ ")"))
  else
    match list_or_tuple view with
    | Some items =>
        (* urlconf_module, app_name, namespace = view *)
        match items with
        | [urlconf_module; app_name; namespace] =>
            inr (RegexURLResolver_node regex urlconf_module kwargs
                   app_name namespace)
        | _ => inl (ValueError "wrong number of values to unpack")
        end
    | None =>
        if callable view then inr (RegexURLPattern_node regex view kwargs name)
        else inl (TypeError
                    "view must be a callable or a list/tuple in the case of include().")
    end.

End with_RegexPattern.

(** The definition in force when that import fails. *)
Module without_RegexPattern.

Definition url_sites (regex : string) (view : pyvalue)
    (kwargs : option (gmap string string)) (name : option string)
    (prefix : string) : error + node :=
  match list_or_tuple view with
  | Some items =>
      (* resolver(regex, view[0], kwargs, *view[1:]) *)
      match items with
      | [] => inl (IndexError "index out of range")
      | [urlconf_name] =>
          inr (RegexURLResolver_node regex urlconf_name kwargs PyNone PyNone)
      | [urlconf_name; app_name] =>
          inr (RegexURLResolver_node regex urlconf_name kwargs app_name PyNone)
      | [urlconf_name; app_name; namespace] =>
          inr (RegexURLResolver_node regex urlconf_name kwargs app_name namespace)
      | _ => inl (TypeError "__init__() takes at most 6 arguments")
      end
  | None =>
      match view with
      | PyStr s =>
          if negb (models.truthy s) then
            inl (ImproperlyConfigured
                   ("Empty URL pattern view name not permitted (for pattern "
                    +:+ repr regex +:+ ")"))
          else
            let view :=
              if models.truthy prefix then PyStr (prefix +:+ "." +:+ s)
              else view in
            inr (RegexURLPattern_node regex view kwargs name)
      | _ => inr (RegexURLPattern_node regex view kwargs name)
      end
  end.

End without_RegexPattern.

(** *** [site_patterns] *)

(** [SiteRegexURLResolver(regex, pattern_list)]: the object the
    constructor leaves, with nothing cached; its patterns are the list it
    was given. *)
Definition SiteRegexURLResolver_new (regex : string)
    (pattern_list : list url_pattern) : RegexURLResolver :=
  {| class := SiteRegexURLResolver_class; _regex := regex;
     url_patterns := pattern_list; namespace := None; app_name := None;
     default_kwargs := ∅; _reverse_dict := ∅; _namespace_dict := ∅;
     _app_dict := ∅; _populated := false; _callback_strs := ∅;
     populating := false |}.

(** [site_patterns], called with the patterns [args]; the new resolver
    gets an address the heap does not use. *)
Definition site_patterns (args : list url_pattern) : M (list url_pattern) :=
  fun h =>
    let r := fresh (dom h) in
    Done [Resolver r] (<[r := SiteRegexURLResolver_new "" args]> h).

End urlresolvers.

(* ===================================================================== *)
(** * Part II: vocabulary of the properties *)
(* ===================================================================== *)

Import models urlresolvers.

(** The language of a regular expression. *)
Inductive Matches : regex -> list ascii -> Prop :=
| Matches_eps : Matches Eps []
| Matches_class accepts c : accepts c = true -> Matches (Class accepts) [c]
| Matches_cat r1 r2 s1 s2 :
    Matches r1 s1 -> Matches r2 s2 -> Matches (Cat r1 r2) (s1 ++ s2)
| Matches_alt_l r1 r2 s : Matches r1 s -> Matches (Alt r1 r2) s
| Matches_alt_r r1 r2 s : Matches r2 s -> Matches (Alt r1 r2) s
| Matches_star_nil r : Matches (Star r) []
| Matches_star_app r s1 s2 :
    Matches r s1 -> Matches (Star r) s2 -> Matches (Star r) (s1 ++ s2).

(** Somewhere in [s] stands a label, a dot and the start of a second
    label: [c mid . d] with [c] in [[a-z0-9]] and [mid], [d] in
    [[a-z0-9-]]. *)
Definition two_segments (s : list ascii) : Prop :=
  exists pre c mid d post,
    s = pre ++ c :: mid ++ "."%char :: d :: post /\
    lower_alnum c = true /\
    Forall (fun x => lower_alnum_hyphen x = true) mid /\
    lower_alnum_hyphen d = true.

(** A record has a domain when the column is neither [NULL] nor empty. *)
Definition has_domain (s : Site) : bool := truthy_opt (domain s).

(** What the site lookup needs from the backend's ordering of [domain]. *)
Class BackendLaws `{Backend} := {
  domain_leb_total a b : domain_leb a b = true \/ domain_leb b a = true;
  domain_leb_trans a b c :
    domain_leb a b = true -> domain_leb b c = true -> domain_leb a c = true;
  (* [NULL] and the empty text sort strictly below every other text *)
  domain_leb_blank a b :
    truthy_opt a = false -> truthy_opt b = true -> domain_leb b a = false
}.

(** The claim that route registration fails fast on every bad [view] and
    builds a node otherwise, for a definition [f] of [url_sites]. *)
Definition fails_fast
    (f : string -> pyvalue -> option (gmap string string) -> option string ->
         string -> error + node) : Prop :=
  forall regex view kwargs name prefix,
    (py_truthy view = false ->
       exists message,
         f regex view kwargs name prefix = inl (ImproperlyConfigured message))
    /\ (py_truthy view = true -> callable view = false ->
        list_or_tuple view = None ->
        exists message, f regex view kwargs name prefix = inl (TypeError message))
    /\ (py_truthy view = true ->
        callable view = true \/ is_Some (list_or_tuple view) ->
        exists n, f regex view kwargs name prefix = inr n).

(** The tuple [_populate] appends for a leaf. *)
Definition leaf_entry (p : RegexURLPattern) : entry :=
  (normalize (strip_caret (pattern_regex p)), strip_caret (pattern_regex p),
   default_args p).

(** How a computation left the heap, when it returned or raised. *)
Definition exits {A} (outcome : result A) (h' : gmap ref RegexURLResolver)
    : Prop :=
  match outcome with
  | Done _ h | Raise _ h => h = h'
  | OutOfFuel | Dangling => False
  end.

(** [lookups'] holds, under every key, the values of [lookups] followed
    by further ones. *)
Definition grows (lookups lookups' : MultiValueDict) : Prop :=
  forall key, exists more, getlist key lookups' = getlist key lookups ++ more.

(** Every run of [m] that returns or raises takes the heap along [R]. *)
Definition steps (R : relation (gmap ref RegexURLResolver)) {A} (m : M A)
    : Prop :=
  forall h h', exits (m h) h' -> R h h'.

(** Every resolver flagged as populating in [h] is still flagged in [h']. *)
Definition flags_kept (h h' : gmap ref RegexURLResolver) : Prop :=
  forall r o, h !! r = Some o -> populating o = true ->
    exists o', h' !! r = Some o' /\ populating o' = true.

(** Every resolver of [h] is still in [h'], related by [Q] to what it was. *)
Definition pointwise (Q : relation RegexURLResolver)
    (h h' : gmap ref RegexURLResolver) : Prop :=
  forall r o, h !! r = Some o -> exists o', h' !! r = Some o' /\ Q o o'.

(** The part of a resolver that [_populate] never assigns. *)
Definition same_static (o o' : RegexURLResolver) : Prop :=
  class o' = class o /\ _regex o' = _regex o
  /\ url_patterns o' = url_patterns o /\ namespace o' = namespace o
  /\ app_name o' = app_name o /\ default_kwargs o' = default_kwargs o.

(** The three caches agree on every prefix other than [prefix]. *)
Definition same_tables_except (prefix : string) (o o' : RegexURLResolver)
    : Prop :=
  forall key, key <> prefix ->
    _reverse_dict o' !! key = _reverse_dict o !! key
    /\ _namespace_dict o' !! key = _namespace_dict o !! key
    /\ _app_dict o' !! key = _app_dict o !! key.

(** The keys a leaf is registered under: its callback, and its name when it
    has one. *)
Definition registers (p : RegexURLPattern) (key : lookup_key) : Prop :=
  key = ByCallback (callback p)
  \/ exists n, name p = Some n /\ key = ByName n.

(** Every reverse table cached under [prefix] holds the tuples of the leaves
    of its resolver.  A heap where nothing is cached satisfies it. *)
Definition tables_sound (prefix : string) (h : gmap ref RegexURLResolver)
    : Prop :=
  forall r o table p key,
    h !! r = Some o -> _reverse_dict o !! prefix = Some table ->
    Pattern p ∈ url_patterns o -> registers p key ->
    leaf_entry p ∈ getlist key table.

Definition sound_kept (prefix : string) (h h' : gmap ref RegexURLResolver)
    : Prop :=
  pointwise same_static h h' /\ (tables_sound prefix h -> tables_sound prefix h').

(** While a parent merges the child [s]: the cached tables are sound and
    [s] is still the resolver [os] it was. *)
Definition merging (prefix : string) (s : ref) (os : RegexURLResolver)
    (h : gmap ref RegexURLResolver) : Prop :=
  tables_sound prefix h /\ exists o, h !! s = Some o /\ same_static os o.

(** ** Vocabulary of termination *)

(** Every include goes to a resolver of the heap with a smaller rank: the
    pattern graph has no cycle. *)
Definition well_founded_graph (rank : ref -> nat)
    (h : gmap ref RegexURLResolver) : Prop :=
  forall r o c, h !! r = Some o -> Resolver c ∈ url_patterns o ->
    is_Some (h !! c) /\ rank c < rank r.

(** No resolver ranked below [bound] is being built. *)
Definition idle_below (rank : ref -> nat) (bound : nat)
    (h : gmap ref RegexURLResolver) : Prop :=
  forall r o, h !! r = Some o -> rank r < bound -> populating o = false.

(** A resolver after a computation that finished every build it started. *)
Definition settled (o o' : RegexURLResolver) : Prop :=
  same_static o o' /\ populating o' = populating o.

Definition quiet (h h' : gmap ref RegexURLResolver) : Prop :=
  dom h' = dom h /\ pointwise settled h h'.

(** The heaps a build of a resolver of rank [bound] runs its loop in. *)
Definition calm (rank : ref -> nat) (bound : nat) (refs : gset ref)
    (h : gmap ref RegexURLResolver) : Prop :=
  dom h = refs /\ well_founded_graph rank h /\ idle_below rank bound h.

(** [m] returns from every heap that satisfies [good], and quietly. *)
Definition returns (good : gmap ref RegexURLResolver -> Prop) {A} (m : M A)
    : Prop :=
  forall h, good h -> exists a h', m h = Done a h' /\ quiet h h'.

(** The resolver at [r] holds its three tables for [prefix]. *)
Definition cached (prefix : string) (r : ref) (h : gmap ref RegexURLResolver)
    : Prop :=
  exists o, h !! r = Some o
    /\ is_Some (_reverse_dict o !! prefix)
    /\ is_Some (_namespace_dict o !! prefix)
    /\ is_Some (_app_dict o !! prefix).

(** The claim that every tuple a build under a tenant prefix stores for a
    leaf carries that prefix in front of its pattern string. *)
Definition prefix_in_every_tuple : Prop :=
  forall site fuel self h o h' o' table p bits pattern defaults,
    _get_path_prefix site <> "_" ->
    h !! self = Some o -> populating o = false ->
    Pattern p ∈ url_patterns o ->
    _populate site fuel self h = Done tt h' ->
    h' !! self = Some o' ->
    _reverse_dict o' !! _get_path_prefix site = Some table ->
    (bits, pattern, defaults) ∈ getlist (ByCallback (callback p)) table ->
    exists rest, pattern = _get_path_prefix site +:+ rest.

(** The string a site resolver puts in front of the patterns of its
    leaves when its parent merges them: [regex.pattern] without its ["^"]. *)
Definition site_prefix (site : option Site) : string :=
  if decide (_get_path_prefix site <> "_") then _get_path_prefix site +:+ "/"
  else "".

(** ** Sample data *)

Definition sample_site (pk : nat) (domain : option string)
    (subdomain path_prefix : string) : Site :=
  {| pk := pk; domain := domain; slug := subdomain; subdomain := subdomain;
     theme := None; base_id := None; is_active := true;
     is_path_prefix := true; path_prefix := path_prefix |}.

Definition sample_rows : list Site :=
  [ sample_site 1 None "acme" "acme";
    sample_site 2 (Some "acme.com") "acme" "acme";
    sample_site 3 (Some "acme.com") "acme" "acme";
    sample_site 4 (Some "") "other" "other" ].

Definition sample_leaf (regex view : string) (name : option string)
    : RegexURLPattern :=
  {| pattern_regex := regex; callback := view; default_args := ∅;
     name := name; lookup_str := view |}.

(** A resolver as its constructor leaves it: nothing cached. *)
Definition new_resolver (class : resolver_class) (regex : string)
    (url_patterns : list url_pattern) (app_name namespace : option string)
    : RegexURLResolver :=
  {| class := class; _regex := regex; url_patterns := url_patterns;
     namespace := namespace; app_name := app_name; default_kwargs := ∅;
     _reverse_dict := ∅; _namespace_dict := ∅; _app_dict := ∅;
     _populated := false; _callback_strs := ∅; populating := false |}.

Definition profile_old : RegexURLPattern :=
  sample_leaf "^user/(?P<id>\d+)/$" "views.profile_old" (Some "profile").

Definition profile_new : RegexURLPattern :=
  sample_leaf "^member/(?P<id>\d+)/$" "views.profile_new" (Some "profile").

(** The root resolver at address 0 holds [site_patterns(...)], the site
    resolver at address 1, which holds two leaves of the same name. *)
Definition sample_root : RegexURLResolver :=
  new_resolver RegexURLResolver_class "^/" [Resolver 1] None None.

Definition sample_site_resolver : RegexURLResolver :=
  new_resolver SiteRegexURLResolver_class ""
    [Pattern profile_old; Pattern profile_new] None None.

Definition sample_heap : gmap ref RegexURLResolver :=
  {[ 0 := sample_root; 1 := sample_site_resolver ]}.

Definition acme : option Site := Some (sample_site 1 None "acme" "acme").

(** A URLconf that includes itself without a namespace. *)
Definition self_including : RegexURLResolver :=
  new_resolver RegexURLResolver_class "^(?P<lang>\w+)/" [Resolver 0] None None.

Definition self_including_heap : gmap ref RegexURLResolver :=
  {[ 0 := self_including ]}.

(** A URLconf that includes itself under a namespace. *)
Definition namespaced_self_including_heap : gmap ref RegexURLResolver :=
  {[ 0 := new_resolver RegexURLResolver_class "^(?P<lang>\w+)/" [Resolver 0]
            (Some "app") (Some "lang") ]}.

(** The resolver of [sample_heap] in the middle of a build. *)
Definition building_heap : gmap ref RegexURLResolver :=
  <[1 := set_populating true sample_site_resolver]> sample_heap.

(** ** Vocabulary of the further properties *)

(** The resolvers being built keep their flag and their three caches. *)
Definition builds_undisturbed (h h' : gmap ref RegexURLResolver) : Prop :=
  forall r o, h !! r = Some o -> populating o = true ->
    exists o', h' !! r = Some o' /\ populating o' = true
      /\ _reverse_dict o' = _reverse_dict o
      /\ _namespace_dict o' = _namespace_dict o
      /\ _app_dict o' = _app_dict o.

(** No callback string is lost. *)
Definition strs_kept (o o' : RegexURLResolver) : Prop :=
  _callback_strs o ⊆ _callback_strs o'.

(** [apps'] lists, for every application, the namespaces of [apps]
    followed by further ones. *)
Definition apps_grow (apps apps' : gmap string (list string)) : Prop :=
  forall app, exists more,
    default [] (apps' !! app) = default [] (apps !! app) ++ more.

(** The tuples the leaves [leaves] put under [key], in the order given. *)
Definition entries_under (key : lookup_key) (leaves : list RegexURLPattern)
    : list entry :=
  leaves ≫= fun p =>
    (if decide (ByCallback (callback p) = key) then [leaf_entry p] else [])
    ++ (if decide (name p = None) then []
        else if decide (ByName (default "" (name p)) = key) then [leaf_entry p]
             else []).

(** Two includes declared under one namespace and one application. *)
Definition shop_heap : gmap ref RegexURLResolver :=
  {[ 0 := new_resolver RegexURLResolver_class "^/"
            [Pattern profile_old; Resolver 1; Resolver 2] None None;
     1 := new_resolver RegexURLResolver_class "^eu/" [Pattern profile_new]
            (Some "store") (Some "shop");
     2 := new_resolver RegexURLResolver_class "^us/" [Pattern profile_new]
            (Some "store") (Some "shop") ]}.

(** An entry of a site resolver's table as its parent stores it: the site
    regex in front of what [normalize] is given and, without its ["^"], in
    front of the pattern string; the default arguments as they were. *)
Definition prefixed_entry (site : option Site) (e : entry) : entry :=
  let '(_, pat, defaults) := e in
  (normalize (SiteRegexURLResolver_regex site +:+ pat),
   site_prefix site +:+ pat, defaults).

(** A root resolver waiting for the site resolver [site_patterns] makes. *)
Definition root_only_heap : gmap ref RegexURLResolver :=
  {[ 0 := sample_root ]}.

(** An include with default keyword arguments over a leaf with defaults of
    its own. *)
Definition localized_leaf : RegexURLPattern :=
  {| pattern_regex := "^page/$"; callback := "views.page";
     default_args := {[ "lang" := "fr"; "page" := "1" ]};
     name := Some "page"; lookup_str := "views.page" |}.

Definition localized_include : RegexURLResolver :=
  {| class := RegexURLResolver_class; _regex := "^en/";
     url_patterns := [Pattern localized_leaf]; namespace := None;
     app_name := None; default_kwargs := {[ "lang" := "en" ]};
     _reverse_dict := ∅; _namespace_dict := ∅; _app_dict := ∅;
     _populated := false; _callback_strs := ∅; populating := false |}.

Definition localized_heap : gmap ref RegexURLResolver :=
  {[ 0 := sample_root; 1 := localized_include ]}.

(** A base site and an alias of it. *)
Definition base_row : Site :=
  {| pk := 7; domain := Some "acme.com"; slug := "acme"; subdomain := "";
     theme := None; base_id := None; is_active := true;
     is_path_prefix := false; path_prefix := "" |}.

Definition alias_row : Site :=
  {| pk := 8; domain := None; slug := "acme-eu"; subdomain := "acme";
     theme := Some "dark"; base_id := Some 7; is_active := true;
     is_path_prefix := false; path_prefix := "" |}.

(* ===================================================================== *)
(** * Part III: properties of [models.py] *)
(* ===================================================================== *)

Section regex_facts.

Lemma Matches_cat_inv r1 r2 s :
  Matches (Cat r1 r2) s ->
  exists s1 s2, s = s1 ++ s2 /\ Matches r1 s1 /\ Matches r2 s2.
Proof. inversion 1; subst; eauto. Qed.

Lemma Matches_class_inv f s :
  Matches (Class f) s -> exists c, s = [c] /\ f c = true.
Proof. inversion 1; subst; eauto. Qed.

Lemma Matches_alt_inv r1 r2 s :
  Matches (Alt r1 r2) s -> Matches r1 s \/ Matches r2 s.
Proof. inversion 1; subst; auto. Qed.

Lemma nullable_Matches r : nullable r = true <-> Matches r [].
Proof.
  induction r as [| |f|r1 IH1 r2 IH2|r1 IH1 r2 IH2|r IH]; simpl.
  - split; [discriminate | inversion 1].
  - split; [constructor | reflexivity].
  - split; [discriminate | inversion 1].
  - rewrite andb_true_iff, IH1, IH2. split.
    + intros [H1 H2]. apply (Matches_cat _ _ [] []); assumption.
    + intros H. apply Matches_cat_inv in H as (s1 & s2 & Heq & H1 & H2).
      symmetry in Heq. apply app_eq_nil in Heq as [-> ->]. auto.
  - rewrite orb_true_iff, IH1, IH2. split.
    + intros [H1|H2]; [apply Matches_alt_l | apply Matches_alt_r]; assumption.
    + apply Matches_alt_inv.
  - split; [constructor | reflexivity].
Qed.

(** A non-empty word of [r*] starts with a non-empty word of [r]. *)
Lemma Matches_star_cons r c s :
  Matches (Star r) (c :: s) ->
  exists s1 s2, s = s1 ++ s2 /\ Matches r (c :: s1) /\ Matches (Star r) s2.
Proof.
  intros H. remember (Star r) as r' eqn:Hr. remember (c :: s) as w eqn:Hw.
  revert c s Hw.
  induction H as [| | | | | |r0 s1 s2 H1 _ H2 IH2]; try discriminate.
  injection Hr as ->. intros c s Hw.
  destruct s1 as [|c1 s1]; simpl in Hw.
  - apply IH2; [reflexivity | assumption].
  - injection Hw as -> <-. exists s1, s2. auto.
Qed.

Lemma deriv_Matches c r s : Matches (deriv c r) s <-> Matches r (c :: s).
Proof.
  revert s.
  induction r as [| |f|r1 IH1 r2 IH2|r1 IH1 r2 IH2|r IH]; intros s; simpl.
  - split; inversion 1.
  - split; inversion 1.
  - destruct (f c) eqn:Hf; split.
    + inversion 1; subst. constructor. assumption.
    + intros H. apply Matches_class_inv in H as (c' & [= <- ->] & _). constructor.
    + inversion 1.
    + intros H. apply Matches_class_inv in H as (c' & [= <- ->] & Hc). congruence.
  - assert (Hcat : Matches (Cat (deriv c r1) r2) s ->
                   Matches (Cat r1 r2) (c :: s)).
    { intros H. apply Matches_cat_inv in H as (s1 & s2 & -> & H1 & H2).
      apply IH1 in H1. apply (Matches_cat _ _ (c :: s1) s2); assumption. }
    assert (Hinv : Matches (Cat r1 r2) (c :: s) ->
                   Matches (Cat (deriv c r1) r2) s \/
                   (Matches r1 [] /\ Matches (deriv c r2) s)).
    { intros H. apply Matches_cat_inv in H as (s1 & s2 & Heq & H1 & H2).
      destruct s1 as [|c1 s1]; simpl in Heq.
      - subst s2. right. split; [assumption | apply IH2; assumption].
      - injection Heq as -> ->. left. constructor; [apply IH1|]; assumption. }
    destruct (nullable r1) eqn:Hn; split.
    + intros H. apply Matches_alt_inv in H as [H|H]; [auto |].
      apply (Matches_cat _ _ [] (c :: s)); [apply nullable_Matches | apply IH2];
        assumption.
    + intros H. destruct (Hinv H) as [H1|[_ H2]];
        [apply Matches_alt_l | apply Matches_alt_r]; assumption.
    + exact Hcat.
    + intros H. destruct (Hinv H) as [H1|[H1 _]]; [assumption |].
      apply nullable_Matches in H1. congruence.
  - split; intros H; apply Matches_alt_inv in H as [H|H];
      solve [apply Matches_alt_l, IH1, H | apply Matches_alt_r, IH2, H].
  - split.
    + intros H. apply Matches_cat_inv in H as (s1 & s2 & -> & H1 & H2).
      apply IH in H1. apply (Matches_star_app _ (c :: s1) s2); assumption.
    + intros H. apply Matches_star_cons in H as (s1 & s2 & -> & H1 & H2).
      constructor; [apply IH|]; assumption.
Qed.

Lemma fullmatch_Matches r s : fullmatch r s = true <-> Matches r s.
Proof.
  revert r. induction s as [|c s IH]; intros r; simpl.
  - apply nullable_Matches.
  - rewrite IH. apply deriv_Matches.
Qed.

Lemma match_Matches r s :
  match_ r s = true <-> exists m post, s = m ++ post /\ Matches r m.
Proof.
  revert r. induction s as [|c s IH]; intros r; simpl.
  - rewrite orb_false_r, nullable_Matches. split.
    + intros H. exists [], []. auto.
    + intros (m & post & Heq & H). symmetry in Heq.
      apply app_eq_nil in Heq as [-> _]. assumption.
  - rewrite orb_true_iff, IH, nullable_Matches. split.
    + intros [H|(m & post & -> & H)].
      * exists [], (c :: s). auto.
      * exists (c :: m), post. split; [reflexivity | apply deriv_Matches, H].
    + intros (m & post & Heq & H). destruct m as [|c' m]; [left; assumption|].
      simpl in Heq. injection Heq as <- ->. right.
      exists m, post. split; [reflexivity | apply deriv_Matches, H].
Qed.

Lemma search_Matches r s :
  search r s = true <-> exists pre m post, s = pre ++ m ++ post /\ Matches r m.
Proof.
  induction s as [|c s IH].
  - change (search r []) with (match_ r [] || false).
    rewrite orb_false_r, match_Matches. split.
    + intros (m & post & Heq & H). exists [], m, post. auto.
    + intros (pre & m & post & Heq & H). symmetry in Heq.
      apply app_eq_nil in Heq as [-> Heq]. exists m, post. auto.
  - change (search r (c :: s)) with (match_ r (c :: s) || search r s).
    rewrite orb_true_iff, IH, match_Matches. split.
    + intros [(m & post & Heq & H)|(pre & m & post & -> & H)].
      * exists [], m, post. auto.
      * exists (c :: pre), m, post. auto.
    + intros (pre & m & post & Heq & H). destruct pre as [|c' pre].
      * left. exists m, post. auto.
      * simpl in Heq. injection Heq as <- ->. right. exists pre, m, post. auto.
Qed.

Lemma Matches_star_class f s :
  Matches (Star (Class f)) s <-> Forall (fun x => f x = true) s.
Proof.
  split.
  - induction s as [|c s IH]; intros H; [constructor|].
    apply Matches_star_cons in H as (s1 & s2 & -> & H1 & H2).
    apply Matches_class_inv in H1 as (c' & Heq & Hc).
    destruct s1; [|discriminate]. injection Heq as <-. constructor; auto.
  - induction 1 as [|c s Hc _ IH]; [constructor|].
    apply (Matches_star_app _ [c] s); [constructor|]; assumption.
Qed.

(** What [domain_regex] matches, read off the pattern. *)
Lemma domain_regex_Matches m :
  Matches domain_regex m ->
  exists c mid d rest,
    m = c :: mid ++ "."%char :: d :: rest /\
    lower_alnum c = true /\
    Forall (fun x => lower_alnum_hyphen x = true) mid /\
    lower_alnum_hyphen d = true.
Proof.
  unfold domain_regex, Plus. intros H.
  apply Matches_cat_inv in H as (s1 & s2 & -> & Hc & H).
  apply Matches_class_inv in Hc as (c & -> & Hc).
  apply Matches_cat_inv in H as (mid & s3 & -> & Hmid & H).
  apply Matches_cat_inv in H as (s4 & rest & -> & H & _).
  apply Matches_cat_inv in H as (s5 & s6 & -> & Hdot & Hd).
  apply Matches_class_inv in Hdot as (c' & -> & Hc').
  apply Matches_class_inv in Hd as (d & -> & Hd).
  apply Matches_star_class in Hmid.
  unfold dot in Hc'. apply Ascii.eqb_eq in Hc'. subst c'.
  exists c, mid, d, rest. simpl. auto.
Qed.

Lemma two_segments_Matches c mid d :
  lower_alnum c = true ->
  Forall (fun x => lower_alnum_hyphen x = true) mid ->
  lower_alnum_hyphen d = true ->
  Matches domain_regex (c :: mid ++ ["."%char; d]).
Proof.
  intros Hc Hmid Hd. unfold domain_regex, Plus.
  apply (Matches_cat _ _ [c]); [constructor; assumption|].
  apply Matches_cat; [apply Matches_star_class; assumption|].
  apply (Matches_cat _ _ ["."%char; d] []); [|constructor].
  apply (Matches_cat _ _ ["."%char] [d]); constructor; [reflexivity | assumption].
Qed.

(** [regex.search] with the domain pattern finds exactly the values that
    hold two dot-separated segments. *)
Lemma search_domain_regex s :
  search domain_regex s = true <-> two_segments s.
Proof.
  rewrite search_Matches. split.
  - intros (pre & m & post & -> & H).
    apply domain_regex_Matches in H as (c & mid & d & rest & -> & Hc & Hmid & Hd).
    exists pre, c, mid, d, (rest ++ post). repeat split; try assumption.
    simpl. rewrite <- !app_assoc. reflexivity.
  - intros (pre & c & mid & d & post & -> & Hc & Hmid & Hd).
    exists pre, (c :: mid ++ ["."%char; d]), post. split.
    + simpl. rewrite <- !app_assoc. reflexivity.
    + apply two_segments_Matches; assumption.
Qed.

End regex_facts.

Section domain_validator_facts.

Lemma contains_truthy s value : contains s value = true -> truthy value = true.
Proof. destruct value; [discriminate | reflexivity]. Qed.

Lemma domain_name_validator_whitespace s value :
  s ∈ whitespace -> contains s value = true ->
  domain_name_validator value =
    ValidationError "The domain name cannot contain any spaces or tabs." "invalid".
Proof.
  intros Hs Hc. unfold domain_name_validator.
  rewrite (contains_truthy _ _ Hc). simpl negb. cbv iota.
  assert (He : existsb id (map (fun s => contains s value) whitespace) = true).
  { apply existsb_exists. exists true. split; [|reflexivity].
    apply in_map_iff. exists s. split; [assumption | apply list_elem_of_In, Hs]. }
  cbv zeta. rewrite He. reflexivity.
Qed.

Lemma RegexValidator_rejects r message code value :
  search r (list_ascii_of_string value) = false ->
  RegexValidator r message code value = ValidationError message code.
Proof. intros H. unfold RegexValidator. rewrite H. reflexivity. Qed.

Lemma run_validators_first_fails v vs value message code :
  truthy value = true -> v value = ValidationError message code ->
  run_validators (v :: vs) value <> [].
Proof.
  intros Ht Hv. unfold run_validators. rewrite Ht. simpl.
  rewrite Hv, filter_cons_True by discriminate. discriminate.
Qed.

Lemma run_validators_second_fails v1 v vs value message code :
  truthy value = true -> v value = ValidationError message code ->
  run_validators (v1 :: v :: vs) value <> [].
Proof.
  intros Ht Hv. unfold run_validators. rewrite Ht. simpl.
  rewrite Hv. intros Hnil.
  assert (Hin : ValidationError message code ∈
                filter (fun o => o <> Returns)
                  (v1 value :: ValidationError message code
                     :: map (fun v0 => v0 value) vs)).
  { apply list_elem_of_filter. split; [discriminate|].
    apply list_elem_of_further, list_elem_of_here. }
  rewrite Hnil in Hin. inversion Hin.
Qed.

End domain_validator_facts.

(** C9.  [domain_name_validator] raises a validation error for every
    value that holds one of the characters of [string.whitespace], and the
    field then rejects the value; the pattern check raises for every value
    without two dot-separated label-like segments, and the field rejects
    such a value when it is not empty.  ["example.com"] passes all the
    validators of the field, ["exa mple.com"] fails the whitespace check
    and ["example"] fails the pattern check. *)
Theorem domain_validation (value : string) :
  (forall s, s ∈ whitespace -> contains s value = true ->
     domain_name_validator value =
       ValidationError "The domain name cannot contain any spaces or tabs."
         "invalid"
     /\ domain_errors value <> [])
  /\ (~ two_segments (list_ascii_of_string value) ->
      (forall message code,
         RegexValidator domain_regex message code value =
           ValidationError message code)
      /\ (truthy value = true -> domain_errors value <> []))
  /\ domain_errors "example.com" = []
  /\ domain_errors "exa mple.com" =
       [ValidationError "The domain name cannot contain any spaces or tabs."
          "invalid"]
  /\ domain_errors "example" =
       [ValidationError "Enter a valid 'domain', ex: example.com" "invalid"].
Proof.
  split; [|split; [|repeat split; reflexivity]].
  - intros s Hs Hc.
    pose proof (domain_name_validator_whitespace s value Hs Hc) as Hv.
    split; [exact Hv|].
    eapply run_validators_first_fails; [eapply contains_truthy|]; eassumption.
  - intros Hno.
    assert (Hs : search domain_regex (list_ascii_of_string value) = false).
    { destruct (search domain_regex (list_ascii_of_string value)) eqn:E;
        [|reflexivity].
      exfalso. apply Hno, search_domain_regex, E. }
    split.
    + intros message code. apply RegexValidator_rejects, Hs.
    + intros Ht. unfold domain_errors, domain_validators.
      eapply run_validators_second_fails; [exact Ht|].
      apply RegexValidator_rejects, Hs.
Qed.

Lemma domain_validation_witness :
  (domain_name_validator "exa mple.com" =
     ValidationError "The domain name cannot contain any spaces or tabs."
       "invalid"
   /\ domain_errors "exa mple.com" <> [])
  /\ ((forall message code,
         RegexValidator domain_regex message code "example" =
           ValidationError message code)
      /\ (truthy "example" = true -> domain_errors "example" <> [])).
Proof.
  split.
  - apply (proj1 (domain_validation "exa mple.com") " "%char).
    + apply list_elem_of_here.
    + reflexivity.
  - apply (proj1 (proj2 (domain_validation "example"))).
    intros H. apply search_domain_regex in H. vm_compute in H. discriminate.
Defined.

Section site_lookup.

Context `{Laws : BackendLaws}.

Lemma precedes_total a b : precedes a b = true \/ precedes b a = true.
Proof.
  unfold precedes.
  destruct (domain_leb (domain a) (domain b)) eqn:Hab,
           (domain_leb (domain b) (domain a)) eqn:Hba; simpl; auto.
  destruct (Nat.leb_spec (pk b) (pk a)); [auto|].
  right. apply Nat.leb_le. lia.
Qed.

Lemma precedes_trans a b c :
  precedes a b = true -> precedes b c = true -> precedes a c = true.
Proof.
  unfold precedes.
  destruct (domain_leb (domain a) (domain b)) eqn:Hab,
           (domain_leb (domain b) (domain a)) eqn:Hba,
           (domain_leb (domain b) (domain c)) eqn:Hbc,
           (domain_leb (domain c) (domain b)) eqn:Hcb,
           (domain_leb (domain a) (domain c)) eqn:Hac,
           (domain_leb (domain c) (domain a)) eqn:Hca;
    simpl; try discriminate; try reflexivity; intros H1 H2;
    repeat match goal with
           | H : (_ <=? _) = true |- _ => apply Nat.leb_le in H
           end;
    try (apply Nat.leb_le; lia);
    try (pose proof (domain_leb_trans _ _ _ Hab Hbc); congruence);
    try (pose proof (domain_leb_trans _ _ _ Hcb Hba); congruence);
    try (pose proof (domain_leb_trans _ _ _ Hca Hab); congruence);
    try (pose proof (domain_leb_trans _ _ _ Hbc Hca); congruence);
    try (pose proof (domain_leb_trans _ _ _ Hac Hcb); congruence);
    try (pose proof (domain_leb_trans _ _ _ Hba Hac); congruence);
    try (destruct (domain_leb_total (domain a) (domain b)); congruence);
    try (destruct (domain_leb_total (domain b) (domain c)); congruence);
    try (destruct (domain_leb_total (domain a) (domain c)); congruence).
Qed.

Lemma elem_of_insert_by (x y : Site) l :
  y ∈ insert_by precedes x l <-> y = x \/ y ∈ l.
Proof.
  induction l as [|z l IH]; simpl.
  - rewrite list_elem_of_singleton, elem_of_nil. tauto.
  - destruct (precedes x z); rewrite !elem_of_cons; [tauto|].
    rewrite IH. tauto.
Qed.

Lemma elem_of_order_by (y : Site) rows : y ∈ order_by precedes rows <-> y ∈ rows.
Proof.
  induction rows as [|x rows IH]; simpl; [reflexivity|].
  rewrite elem_of_insert_by, IH, elem_of_cons. reflexivity.
Qed.

(** The first row of a sorted query comes no later than any other row. *)
Lemma first_order_by rows r :
  first (order_by precedes rows) = Some r ->
  forall s, s ∈ rows -> precedes r s = true.
Proof.
  unfold first. revert r. induction rows as [|x rows IH]; intros r Hr s Hs.
  - inversion Hs.
  - simpl in Hr.
    assert (Hrefl : forall a, precedes a a = true)
      by (intros a; destruct (precedes_total a a); assumption).
    destruct (order_by precedes rows) as [|y sorted] eqn:Hsorted.
    + simpl in Hr. injection Hr as <-.
      apply elem_of_cons in Hs as [->|Hs]; [apply Hrefl|].
      apply elem_of_order_by in Hs. rewrite Hsorted in Hs. inversion Hs.
    + simpl in Hr. specialize (IH y eq_refl).
      destruct (precedes x y) eqn:Hxy; simpl in Hr; injection Hr as <-.
      * apply elem_of_cons in Hs as [->|Hs]; [apply Hrefl|].
        eapply precedes_trans; [exact Hxy | apply IH, Hs].
      * apply elem_of_cons in Hs as [->|Hs]; [|apply IH, Hs].
        destruct (precedes_total x y); congruence.
Qed.

Lemma precedes_has_domain r s :
  precedes r s = true -> has_domain s = true -> has_domain r = true.
Proof.
  unfold precedes, has_domain. intros Hp Hs.
  destruct (truthy_opt (domain r)) eqn:Hr; [reflexivity|].
  pose proof (domain_leb_blank _ _ Hr Hs) as Hsr. rewrite Hsr in Hp.
  destruct (domain_leb (domain r) (domain s)) eqn:Hrs; simpl in Hp;
    [discriminate|].
  destruct (domain_leb_total (domain r) (domain s)); congruence.
Qed.

Lemma precedes_same_domain r s :
  precedes r s = true -> domain s = domain r -> pk s <= pk r.
Proof.
  unfold precedes. intros Hp Heq. rewrite Heq in Hp.
  assert (Hrefl : domain_leb (domain r) (domain r) = true)
    by (destruct (domain_leb_total (domain r) (domain r)); assumption).
  rewrite Hrefl in Hp. simpl in Hp. apply Nat.leb_le, Hp.
Qed.

End site_lookup.

Section nulls_lowest_facts.

Lemma string_leb_total a b : string_leb a b = true \/ string_leb b a = true.
Proof.
  revert b. induction a as [|x a IH]; intros [|y b]; simpl; auto.
  destruct (Nat.ltb_spec (nat_of_ascii x) (nat_of_ascii y)); [auto|].
  destruct (Nat.ltb_spec (nat_of_ascii y) (nat_of_ascii x)); [auto|].
  apply IH.
Qed.

Lemma string_leb_trans a b c :
  string_leb a b = true -> string_leb b c = true -> string_leb a c = true.
Proof.
  revert b c. induction a as [|x a IH]; intros [|y b] [|z c]; simpl;
    try reflexivity; try discriminate.
  destruct (Nat.ltb_spec (nat_of_ascii x) (nat_of_ascii y)),
           (Nat.ltb_spec (nat_of_ascii y) (nat_of_ascii x)),
           (Nat.ltb_spec (nat_of_ascii y) (nat_of_ascii z)),
           (Nat.ltb_spec (nat_of_ascii z) (nat_of_ascii y)),
           (Nat.ltb_spec (nat_of_ascii x) (nat_of_ascii z)),
           (Nat.ltb_spec (nat_of_ascii z) (nat_of_ascii x));
    try reflexivity; try discriminate; try lia.
  apply IH.
Qed.

Lemma string_leb_empty a : truthy a = true -> string_leb a "" = false.
Proof. destruct a; [discriminate | reflexivity]. Qed.

Lemma nulls_lowest_laws : @BackendLaws nulls_lowest.
Proof.
  split.
  - intros [a|] [b|]; simpl; auto. apply string_leb_total.
  - intros [a|] [b|] [c|]; simpl; try reflexivity; try discriminate.
    apply string_leb_trans.
  - intros [a|] [b|]; simpl; try discriminate; try reflexivity.
    intros Ha Hb. destruct a; [|discriminate]. apply string_leb_empty, Hb.
Qed.

End nulls_lowest_facts.



(* ===================================================================== *)
(** * Part IV: properties of [urlresolvers.py] *)
(* ===================================================================== *)

(** C6.  Without a current site, or with one whose [path_prefix] is empty,
    the prefix is ["_"] and the site resolver's pattern is ["^"]; for
    every prefix [p] other than ["_"] the pattern is ["^p/"], and a site
    with a non-empty [path_prefix] yields that prefix. *)
Theorem sentinel_prefix (current_site : option Site) :
  (current_site = None \/
   (exists site, current_site = Some site /\ path_prefix site = "") ->
     _get_path_prefix current_site = "_"
     /\ SiteRegexURLResolver_regex current_site = "^")
  /\ (_get_path_prefix current_site <> "_" ->
      SiteRegexURLResolver_regex current_site
        = "^" +:+ _get_path_prefix current_site +:+ "/")
  /\ (forall site, current_site = Some site -> path_prefix site <> "" ->
        _get_path_prefix current_site = path_prefix site).
Proof.
  unfold SiteRegexURLResolver_regex. split; [|split].
  - intros [->|(site & -> & Hp)]; simpl; [|rewrite Hp]; split; reflexivity.
  - intros Hne. cbv zeta. destruct (decide _) as [_|Heq]; [reflexivity|].
    destruct Heq. exact Hne.
  - intros site -> Hne. simpl. destruct (path_prefix site); [|reflexivity].
    destruct Hne. reflexivity.
Qed.

Lemma sentinel_prefix_witness :
  (_get_path_prefix None = "_" /\ SiteRegexURLResolver_regex None = "^")
  /\ SiteRegexURLResolver_regex acme
       = "^acme/".
Proof.
  split.
  - apply (proj1 (sentinel_prefix None)). left. reflexivity.
  - apply (proj1 (proj2 (sentinel_prefix
                           acme))).
    discriminate.
Defined.




(** ** Reasoning about heap computations *)

Section monad_facts.

Context {A B : Type}.
Implicit Types (m : M A) (k : A -> M B) (h : gmap ref RegexURLResolver).

Lemma bind_Done m k h b h' :
  bind m k h = Done b h' ->
  exists a h1, m h = Done a h1 /\ k a h1 = Done b h'.
Proof. unfold bind. destruct (m h); try discriminate. eauto. Qed.

Lemma bind_Raise m k h e h' :
  bind m k h = Raise e h' ->
  m h = Raise e h' \/ exists a h1, m h = Done a h1 /\ k a h1 = Raise e h'.
Proof.
  unfold bind. destruct (m h); try discriminate; [eauto 10|].
  intros [= -> ->]. left. reflexivity.
Qed.

Lemma bind_exits m k h h' :
  exits (bind m k h) h' ->
  exits (m h) h' \/ exists a h1, m h = Done a h1 /\ exits (k a h1) h'.
Proof. unfold bind. destruct (m h); simpl; eauto 10. Qed.

End monad_facts.

Lemma get_Done r h o h' : get r h = Done o h' -> h !! r = Some o /\ h' = h.
Proof. unfold get. destruct (h !! r); [|discriminate]. intros [= -> ->]. auto. Qed.

Lemma get_exits r h h' :
  exits (get r h) h' -> exists o, h !! r = Some o /\ get r h = Done o h /\ h' = h.
Proof. unfold get. destruct (h !! r); simpl; [|tauto]. intros <-. eauto. Qed.

Lemma modify_Done r f h u h' :
  modify r f h = Done u h' -> exists o, h !! r = Some o /\ h' = <[r := f o]> h.
Proof.
  unfold modify. destruct (h !! r); [|discriminate]. intros [= _ <-]. eauto.
Qed.

Lemma modify_exits r f h h' :
  exits (modify r f h) h' ->
  exists o, h !! r = Some o /\ modify r f h = Done tt (<[r := f o]> h)
            /\ h' = <[r := f o]> h.
Proof. unfold modify. destruct (h !! r); simpl; [|tauto]. intros <-. eauto. Qed.

Lemma Done_exits {A} (outcome : result A) a h' :
  outcome = Done a h' -> exits outcome h'.
Proof. intros ->. reflexivity. Qed.

Lemma Raise_exits {A} (outcome : result A) e h' :
  outcome = Raise e h' -> exits outcome h'.
Proof. intros ->. reflexivity. Qed.

(** Unfold one layer of [_populate]. *)
Lemma populate_unfold site fuel self h :
  _populate site fuel self h =
    match h !! self with
    | None => Dangling
    | Some o =>
        if populating o then Done tt h
        else match fuel with
             | 0 => OutOfFuel
             | S fuel' => populate_body site (_populate site fuel') self h
             end
    end.
Proof.
  destruct fuel; simpl; unfold bind, get; destruct (h !! self) as [o|];
    try reflexivity; destruct (populating o); reflexivity.
Qed.

(** The guard of [_populate]. *)
Lemma populate_guarded site fuel self h o :
  h !! self = Some o -> populating o = true ->
  _populate site fuel self h = Done tt h.
Proof. intros Hs Hp. rewrite populate_unfold, Hs, Hp. reflexivity. Qed.

(** C1.  Called on a resolver whose [populating] flag is set, [_populate]
    returns at once, whatever the fuel, and leaves the whole heap, and so
    every reverse, namespace and application table, as it was. *)
Theorem populate_reentrant (site : option Site) (fuel : nat) (self : ref)
    (h : gmap ref RegexURLResolver) (o : RegexURLResolver) :
  h !! self = Some o -> populating o = true ->
  _populate site fuel self h = Done tt h.
Proof. apply populate_guarded. Qed.

Lemma populate_reentrant_witness :
  _populate acme 0 1 building_heap
    = Done tt building_heap.
Proof.
  eapply populate_reentrant; [vm_compute; reflexivity | reflexivity].
Defined.

(** The guard at work: a URLconf that includes itself under a namespace is
    built with one unit of fuel; the nested call is skipped. *)
Example namespaced_self_include_returns :
  exists h',
    _populate None 1 0 namespaced_self_including_heap = Done tt h'
    /\ (_namespace_dict <$> h' !! 0)
       = Some {[ "_" := {[ "lang" := ("(?P<lang>\w+)/", 0) ]} ]}.
Proof. eexists. split; vm_compute; reflexivity. Qed.

(** C7.  While its [populating] flag is set, a resolver with nothing cached
    for the current prefix fails every table accessor with a [KeyError] for
    that prefix; the build the accessor triggers stores nothing, so the heap
    is unchanged. *)
Theorem accessor_during_build (site : option Site) (fuel : nat) (self : ref)
    (h : gmap ref RegexURLResolver) (o : RegexURLResolver) :
  h !! self = Some o -> populating o = true ->
  (_reverse_dict o !! _get_path_prefix site = None ->
     reverse_dict site fuel self h = Raise (KeyError (_get_path_prefix site)) h)
  /\ (_namespace_dict o !! _get_path_prefix site = None ->
      namespace_dict site fuel self h
        = Raise (KeyError (_get_path_prefix site)) h)
  /\ (_app_dict o !! _get_path_prefix site = None ->
      app_dict site fuel self h = Raise (KeyError (_get_path_prefix site)) h).
Proof.
  intros Hs Hp.
  pose proof (populate_guarded site fuel self h o Hs Hp) as Hpop.
  unfold reverse_dict, reverse_dict_with, namespace_dict, namespace_dict_with,
    app_dict, app_dict_with, bind, get, raise.
  rewrite Hs. repeat split; intros Hnone; rewrite Hnone;
    (destruct (decide (is_Some None)) as [[? ?]|_]; [discriminate|]);
    rewrite Hpop, Hs, Hnone; reflexivity.
Qed.

Lemma accessor_during_build_witness :
  reverse_dict None 3 1 building_heap = Raise (KeyError "_") building_heap
  /\ namespace_dict None 3 1 building_heap = Raise (KeyError "_") building_heap
  /\ app_dict None 3 1 building_heap = Raise (KeyError "_") building_heap.
Proof.
  pose proof (accessor_during_build None 3 1 building_heap
                (set_populating true sample_site_resolver) eq_refl eq_refl)
    as (Hr & Hn & Ha).
  split; [apply Hr | split; [apply Hn | apply Ha]]; reflexivity.
Defined.

(** A build that returns ran the loop and then stored its three tables. *)
Lemma populate_body_Done site populate self h u h' :
  populate_body site populate self h = Done u h' ->
  exists o lookups namespaces apps h2 o2,
    h !! self = Some o
    /\ loop site populate self (rev (url_patterns o)) ([], ∅, ∅)
         (<[self := set_populating true o]> h)
       = Done (lookups, namespaces, apps) h2
    /\ h2 !! self = Some o2
    /\ h' = <[self := store_tables (_get_path_prefix site) lookups namespaces
                        apps o2]> h2.
Proof.
  unfold populate_body. intros H.
  apply bind_Done in H as ([] & h1 & Hm & H).
  apply modify_Done in Hm as (o & Ho & ->).
  apply bind_Done in H as (o1 & h1 & Hg & H).
  apply get_Done in Hg as [Ho1 ->].
  rewrite lookup_insert_eq in Ho1. injection Ho1 as <-.
  apply bind_Done in H as ([[lookups namespaces] apps] & h2 & Hloop & H).
  apply modify_Done in H as (o2 & Ho2 & ->).
  exists o, lookups, namespaces, apps, h2, o2. auto.
Qed.

Lemma populate_Done site fuel self h o h' :
  h !! self = Some o -> populating o = false ->
  _populate site fuel self h = Done tt h' ->
  exists fuel' lookups namespaces apps h2 o2,
    fuel = S fuel'
    /\ loop site (_populate site fuel') self (rev (url_patterns o)) ([], ∅, ∅)
         (<[self := set_populating true o]> h)
       = Done (lookups, namespaces, apps) h2
    /\ h2 !! self = Some o2
    /\ h' = <[self := store_tables (_get_path_prefix site) lookups namespaces
                        apps o2]> h2.
Proof.
  intros Ho Hp. rewrite populate_unfold, Ho, Hp.
  destruct fuel as [|fuel']; [discriminate|]. intros H.
  apply populate_body_Done in H
    as (o' & lookups & namespaces & apps & h2 & o2 & Ho' & Hloop & Ho2 & ->).
  rewrite Ho in Ho'. injection Ho' as <-.
  exists fuel', lookups, namespaces, apps, h2, o2. auto.
Qed.

(** Reading a cached table: no build, no change. *)
Lemma reverse_dict_with_cached site populate self h o table :
  h !! self = Some o -> _reverse_dict o !! _get_path_prefix site = Some table ->
  reverse_dict_with site populate self h = Done table h.
Proof.
  intros Ho Ht. unfold reverse_dict_with, bind, get, ret. rewrite Ho, Ht.
  destruct (decide (is_Some (Some table))) as [_|Hn];
    [|destruct Hn; eexists; reflexivity].
  rewrite Ho, Ht. reflexivity.
Qed.

(** What an accessor returns is what the heap it leaves has cached. *)
Lemma reverse_dict_with_Done site populate self h table h' :
  reverse_dict_with site populate self h = Done table h' ->
  exists o', h' !! self = Some o'
             /\ _reverse_dict o' !! _get_path_prefix site = Some table.
Proof.
  unfold reverse_dict_with. intros H.
  apply bind_Done in H as (o & h1 & _ & H).
  apply bind_Done in H as (u & h2 & _ & H).
  apply bind_Done in H as (o2 & h3 & Hg & H).
  apply get_Done in Hg as [Ho2 ->].
  destruct (_reverse_dict o2 !! _get_path_prefix site) as [t|] eqn:Ht;
    [|discriminate].
  injection H as -> ->. eauto.
Qed.

(** C3.  Once a build under the current prefix has returned, the resolver
    holds a table for that prefix, and [reverse_dict] returns that table
    with any fuel, zero included, so without building, and leaves the heap
    unchanged; and whenever [reverse_dict] has returned a table, evaluating
    it again returns the same table and changes nothing. *)
Theorem reverse_dict_idempotent (site : option Site) (fuel : nat) (self : ref)
    (h h' : gmap ref RegexURLResolver) :
  (forall o, h !! self = Some o -> populating o = false ->
     _populate site fuel self h = Done tt h' ->
     exists o' table,
       h' !! self = Some o'
       /\ _reverse_dict o' !! _get_path_prefix site = Some table
       /\ forall fuel', reverse_dict site fuel' self h' = Done table h')
  /\ (forall table,
        reverse_dict site fuel self h = Done table h' ->
        forall fuel', reverse_dict site fuel' self h' = Done table h').
Proof.
  split.
  - intros o Ho Hp Hrun.
    apply (populate_Done _ _ _ _ _ _ Ho Hp) in Hrun
      as (fuel' & lookups & namespaces & apps & h2 & o2 & _ & _ & Ho2 & ->).
    eexists _, lookups. split; [apply lookup_insert_eq|].
    split; [apply lookup_insert_eq|].
    intros fuel''. eapply reverse_dict_with_cached;
      [apply lookup_insert_eq | apply lookup_insert_eq].
  - intros table Hrun fuel'.
    apply reverse_dict_with_Done in Hrun as (o' & Ho' & Ht).
    eapply reverse_dict_with_cached; eassumption.
Qed.

Lemma reverse_dict_idempotent_witness :
  exists h' table,
    _populate acme 2 0 sample_heap
      = Done tt h'
    /\ getlist (ByName "profile") table
       = [ (normalize "^acme/member/(?P<id>\d+)/$", "acme/member/(?P<id>\d+)/$", ∅);
           (normalize "^acme/user/(?P<id>\d+)/$", "acme/user/(?P<id>\d+)/$", ∅) ]
    /\ reverse_dict acme 0 0 h'
       = Done table h'.
Proof.
  destruct (_populate acme 2 0 sample_heap)
    as [[] h'| | |] eqn:Hrun; try (vm_compute in Hrun; discriminate Hrun).
  destruct (proj1 (reverse_dict_idempotent
                     acme 2 0
                     sample_heap h')
              sample_root eq_refl eq_refl Hrun)
    as (o' & table & Ho' & Ht & Hagain).
  exists h', table. split; [reflexivity|]. split; [|apply Hagain].
  vm_compute in Hrun. injection Hrun as <-.
  vm_compute in Ho'. injection Ho' as <-.
  vm_compute in Ht. injection Ht as <-. vm_compute. reflexivity.
Defined.

(** ** The reverse table only grows during the loop *)

Section lookups_facts.

Lemma getlist_appendlist key key' value d :
  getlist key (appendlist key' value d) =
    if decide (key' = key) then getlist key d ++ [value] else getlist key d.
Proof.
  induction d as [|[k vs] d IH]; simpl.
  - destruct (decide (key' = key)); reflexivity.
  - destruct (decide (k = key')) as [->|Hne]; simpl.
    + destruct (decide (key' = key)); reflexivity.
    + destruct (decide (k = key)) as [->|Hne'].
      * destruct (decide (key' = key)); [congruence | reflexivity].
      * exact IH.
Qed.

Lemma getlist_appendlist_eq key value d :
  getlist key (appendlist key value d) = getlist key d ++ [value].
Proof. rewrite getlist_appendlist. destruct (decide _); congruence. Qed.

Lemma getlist_appendlist_ne key key' value d :
  key' <> key -> getlist key (appendlist key' value d) = getlist key d.
Proof. intros. rewrite getlist_appendlist. destruct (decide _); congruence. Qed.

Lemma grows_refl d : grows d d.
Proof. intros key. exists []. symmetry. apply app_nil_r. Qed.

Lemma grows_trans d1 d2 d3 : grows d1 d2 -> grows d2 d3 -> grows d1 d3.
Proof.
  intros H12 H23 key. destruct (H12 key) as [m1 E1], (H23 key) as [m2 E2].
  exists (m1 ++ m2). rewrite E2, E1, app_assoc. reflexivity.
Qed.

Lemma grows_appendlist key value d : grows d (appendlist key value d).
Proof.
  intros k. rewrite getlist_appendlist. destruct (decide _).
  - exists [value]. reflexivity.
  - exists []. symmetry. apply app_nil_r.
Qed.

Lemma grows_elem_of d d' key e :
  grows d d' -> e ∈ getlist key d -> e ∈ getlist key d'.
Proof.
  intros Hg He. destruct (Hg key) as [more ->]. apply elem_of_app. auto.
Qed.

(** The inner loop of an anonymous include, for one name. *)
Lemma getlist_foldl_appendlist key name (f : entry -> entry) es d :
  getlist key (foldl (fun lk e => appendlist name (f e) lk) d es) =
    if decide (name = key) then getlist key d ++ map f es else getlist key d.
Proof.
  revert d. induction es as [|e es IH]; intros d; simpl.
  - destruct (decide _); [rewrite app_nil_r|]; reflexivity.
  - rewrite IH, getlist_appendlist.
    destruct (decide _); [rewrite <- app_assoc|]; reflexivity.
Qed.

Lemma grows_foldl_appendlist name (f : entry -> entry) es d :
  grows d (foldl (fun lk e => appendlist name (f e) lk) d es).
Proof.
  intros key. rewrite getlist_foldl_appendlist. destruct (decide _).
  - eexists. reflexivity.
  - exists []. symmetry. apply app_nil_r.
Qed.

End lookups_facts.

Section loop_facts.

Variable site : option Site.
Variable populate : ref -> M unit.

Lemma merge_lookups_grows pattern parent_pat p_pattern kw names lookups h
    lookups' h' :
  merge_lookups site populate pattern parent_pat p_pattern kw names lookups h
    = Done lookups' h' ->
  grows lookups lookups'.
Proof.
  revert lookups h. induction names as [|name names IH]; intros lookups h; simpl.
  - intros [= -> _]. apply grows_refl.
  - intros H. apply bind_Done in H as (table & h1 & _ & H).
    eapply grows_trans; [apply grows_foldl_appendlist | eapply IH, H].
Qed.

(** What visiting a leaf does to the accumulators. *)
Lemma visit_Pattern_Done self p lookups namespaces apps h acc' h' :
  visit site populate self (Pattern p) (lookups, namespaces, apps) h
    = Done acc' h' ->
  acc' = (match name p with
          | Some n => appendlist (ByName n) (leaf_entry p)
          | None => fun lk => lk
          end (appendlist (ByCallback (callback p)) (leaf_entry p) lookups),
          namespaces, apps)
  /\ exists o, h !! self = Some o
               /\ h' = <[self := add_callback_strs {[lookup_str p]} o]> h.
Proof.
  simpl. intros H. apply bind_Done in H as ([] & h1 & Hm & H).
  apply modify_Done in Hm as (o & Ho & ->).
  injection H as <- <-. split; [|eauto].
  unfold leaf_entry. destruct (name p); reflexivity.
Qed.

(** What visiting a resolver does to the reverse table: nothing for a
    namespaced include, a merge of the child's table for an anonymous one. *)
Lemma visit_Resolver_Done self r lookups namespaces apps h lookups' namespaces'
    apps' h' :
  visit site populate self (Resolver r) (lookups, namespaces, apps) h
    = Done (lookups', namespaces', apps') h' ->
  exists o, h !! r = Some o /\
    ((truthy_opt (namespace o) = true /\ lookups' = lookups) \/
     (truthy_opt (namespace o) = false /\
      exists table h1 h2,
        reverse_dict_with site populate r h = Done table h1
        /\ merge_lookups site populate r (regex_pattern site o)
             (strip_caret (regex_pattern site o)) (default_kwargs o)
             (keys table) lookups h1 = Done lookups' h2)).
Proof.
  simpl. intros H. apply bind_Done in H as (o & h0 & Hg & H).
  apply get_Done in Hg as [Ho ->]. exists o. split; [exact Ho|].
  apply bind_Done in H as ([[l1 n1] a1] & h3 & Hacc & H).
  apply bind_Done in H as (o3 & ? & _ & H).
  apply bind_Done in H as (? & ? & _ & H).
  apply bind_Done in H as (? & ? & _ & H).
  apply bind_Done in H as (? & ? & _ & H).
  injection H as -> -> -> _.
  destruct (truthy_opt (namespace o)).
  - left. injection Hacc as -> _ _ _. auto.
  - right. split; [reflexivity|].
    apply bind_Done in Hacc as (table & h1 & Ht & Hacc).
    apply bind_Done in Hacc as (l2 & h2 & Hmerge & Hacc).
    apply bind_Done in Hacc as (? & ? & _ & Hacc).
    apply bind_Done in Hacc as (? & ? & _ & Hacc).
    injection Hacc as -> _ _ _. eauto.
Qed.

Lemma visit_grows self pattern lookups namespaces apps h lookups' namespaces'
    apps' h' :
  visit site populate self pattern (lookups, namespaces, apps) h
    = Done (lookups', namespaces', apps') h' ->
  grows lookups lookups'.
Proof.
  destruct pattern as [p|r]; intros H.
  - apply visit_Pattern_Done in H as [[= -> _ _] _].
    destruct (name p);
      [eapply grows_trans; [|apply grows_appendlist]|]; apply grows_appendlist.
  - apply visit_Resolver_Done in H
      as (o & _ & [[_ ->]|(_ & table & h1 & h2 & _ & Hm)]).
    + apply grows_refl.
    + eapply merge_lookups_grows, Hm.
Qed.

Lemma loop_grows self patterns lookups namespaces apps h lookups' namespaces'
    apps' h' :
  loop site populate self patterns (lookups, namespaces, apps) h
    = Done (lookups', namespaces', apps') h' ->
  grows lookups lookups'.
Proof.
  revert lookups namespaces apps h.
  induction patterns as [|pattern rest IH]; intros lookups namespaces apps h;
    simpl.
  - intros [= -> _ _ _]. apply grows_refl.
  - intros H. apply bind_Done in H as ([[l1 n1] a1] & h1 & Hv & H).
    eapply grows_trans; [eapply visit_grows, Hv | eapply IH, H].
Qed.

Lemma loop_app self ps1 ps2 acc h acc' h' :
  loop site populate self (ps1 ++ ps2) acc h = Done acc' h' ->
  exists acc1 h1,
    loop site populate self ps1 acc h = Done acc1 h1
    /\ loop site populate self ps2 acc1 h1 = Done acc' h'.
Proof.
  revert acc h. induction ps1 as [|p ps1 IH]; intros acc h; simpl.
  - intros H. exists acc, h. auto.
  - intros H. apply bind_Done in H as (acc0 & h0 & Hv & H).
    apply IH in H as (acc1 & h1 & H1 & H2).
    exists acc1, h1. split; [|exact H2]. unfold bind. rewrite Hv. exact H1.
Qed.

Lemma loop_cons self pattern rest acc h acc' h' :
  loop site populate self (pattern :: rest) acc h = Done acc' h' ->
  exists acc1 h1,
    visit site populate self pattern acc h = Done acc1 h1
    /\ loop site populate self rest acc1 h1 = Done acc' h'.
Proof. apply bind_Done. Qed.

(** Visiting a leaf appends its tuple under its callback and its name and
    touches no other key. *)
Lemma visit_leaf_getlist self p lookups namespaces apps h lookups' namespaces'
    apps' h' key :
  visit site populate self (Pattern p) (lookups, namespaces, apps) h
    = Done (lookups', namespaces', apps') h' ->
  getlist key lookups' =
    getlist key lookups
    ++ (if decide (ByCallback (callback p) = key) then [leaf_entry p] else [])
    ++ (if decide (name p = None) then []
        else if decide (ByName (default "" (name p)) = key) then [leaf_entry p]
             else []).
Proof.
  intros H. apply visit_Pattern_Done in H as [[= -> _ _] _].
  destruct (name p) as [n|]; simpl.
  - rewrite !getlist_appendlist.
    destruct (decide (ByName n = key)), (decide (ByCallback (callback p) = key));
      simpl; rewrite <- ?app_assoc, ?app_nil_r; reflexivity.
  - rewrite getlist_appendlist.
    destruct (decide (ByCallback (callback p) = key));
      simpl; rewrite ?app_nil_r; reflexivity.
Qed.

(** A run of leaves with other names leaves the list of [n] alone. *)
Lemma loop_other_names self n patterns lookups namespaces apps h lookups'
    namespaces' apps' h' :
  Forall (fun q => exists p, q = Pattern p /\ name p <> Some n) patterns ->
  loop site populate self patterns (lookups, namespaces, apps) h
    = Done (lookups', namespaces', apps') h' ->
  getlist (ByName n) lookups' = getlist (ByName n) lookups.
Proof.
  intros Hall. revert lookups namespaces apps h.
  induction Hall as [|q rest (p & -> & Hp) _ IH];
    intros lookups namespaces apps h; simpl.
  - intros [= -> _ _ _]. reflexivity.
  - intros H. apply bind_Done in H as ([[l1 n1] a1] & h1 & Hv & H).
    rewrite (IH _ _ _ _ H), (visit_leaf_getlist _ _ _ _ _ _ _ _ _ _ _ Hv).
    destruct (decide (ByCallback _ = ByName n)) as [|_]; [discriminate|].
    destruct (name p) as [m|]; simpl; [|apply app_nil_r].
    destruct (decide (ByName m = ByName n)) as [[= ->]|_];
      [destruct Hp; reflexivity | apply app_nil_r].
Qed.

End loop_facts.

(** The table a returned build stored is the one its loop accumulated. *)
Lemma populate_Done_table site fuel self h o h' :
  h !! self = Some o -> populating o = false ->
  _populate site fuel self h = Done tt h' ->
  exists fuel' lookups namespaces apps h2 o',
    loop site (_populate site fuel') self (rev (url_patterns o)) ([], ∅, ∅)
      (<[self := set_populating true o]> h)
    = Done (lookups, namespaces, apps) h2
    /\ h' !! self = Some o'
    /\ _reverse_dict o' !! _get_path_prefix site = Some lookups
    /\ populating o' = false.
Proof.
  intros Ho Hp Hrun.
  apply (populate_Done _ _ _ _ _ _ Ho Hp) in Hrun
    as (fuel' & lookups & namespaces & apps & h2 & o2 & _ & Hloop & Ho2 & ->).
  exists fuel', lookups, namespaces, apps, h2. eexists.
  split; [exact Hloop|]. split; [apply lookup_insert_eq|].
  split; [apply lookup_insert_eq | reflexivity].
Qed.

(** C5.  The loop runs over the patterns in reverse declaration order: when
    two leaves of a resolver carry the same name, the list stored under that
    name holds the tuple of the one declared later before the tuple of the
    one declared earlier; and when only leaves of other names are declared
    after the later one, its tuple is the first of the list, the candidate a
    reverse lookup tries first. *)
Theorem last_declared_first (site : option Site) (fuel : nat) (self : ref)
    (h h' : gmap ref RegexURLResolver) (o : RegexURLResolver)
    (before mid after : list url_pattern) (a b : RegexURLPattern) (n : string) :
  h !! self = Some o -> populating o = false ->
  url_patterns o = before ++ Pattern a :: mid ++ Pattern b :: after ->
  name a = Some n -> name b = Some n ->
  _populate site fuel self h = Done tt h' ->
  exists o' table xs ys zs,
    h' !! self = Some o'
    /\ _reverse_dict o' !! _get_path_prefix site = Some table
    /\ getlist (ByName n) table = xs ++ leaf_entry b :: ys ++ leaf_entry a :: zs
    /\ (Forall (fun q => exists p, q = Pattern p /\ name p <> Some n) after ->
        xs = []).
Proof.
  intros Ho Hp Hpatterns Ha Hb Hrun.
  apply (populate_Done_table _ _ _ _ _ _ Ho Hp) in Hrun
    as (fuel' & lookups & namespaces & apps & h2 & o' & Hloop & Ho' & Ht & _).
  assert (Hrev : rev (before ++ Pattern a :: mid ++ Pattern b :: after)
                 = rev after ++ Pattern b :: rev mid ++ Pattern a :: rev before).
  { rewrite rev_app_distr. simpl. rewrite rev_app_distr. simpl.
    rewrite <- !app_assoc. reflexivity. }
  rewrite Hpatterns, Hrev in Hloop.
  apply loop_app in Hloop as ([[l1 n1] a1] & h1 & Hafter & Hloop).
  apply loop_cons in Hloop as ([[l2 n2] a2] & h3 & Hvb & Hloop).
  apply loop_app in Hloop as ([[l3 n3] a3] & h4 & Hmid & Hloop).
  apply loop_cons in Hloop as ([[l4 n4] a4] & h5 & Hva & Hbefore).
  pose proof (visit_leaf_getlist _ _ _ _ _ _ _ _ _ _ _ _ (ByName n) Hvb) as Eb.
  pose proof (visit_leaf_getlist _ _ _ _ _ _ _ _ _ _ _ _ (ByName n) Hva) as Ea.
  rewrite Hb in Eb. rewrite Ha in Ea. simpl in Eb, Ea.
  destruct (decide (ByCallback (callback b) = ByName n)); [discriminate|].
  destruct (decide (ByCallback (callback a) = ByName n)); [discriminate|].
  destruct (decide (ByName n = ByName n)); [|congruence].
  simpl in Eb, Ea.
  destruct (loop_grows _ _ _ _ _ _ _ _ _ _ _ _ Hmid (ByName n)) as [ys Emid].
  destruct (loop_grows _ _ _ _ _ _ _ _ _ _ _ _ Hbefore (ByName n)) as [zs Ebefore].
  exists o', lookups, (getlist (ByName n) l1), ys, zs.
  split; [exact Ho'|]. split; [exact Ht|]. split.
  - rewrite Ebefore, Ea, Emid, Eb. rewrite <- !app_assoc. reflexivity.
  - intros Hall. apply List.Forall_rev in Hall.
    apply (loop_other_names _ _ _ _ _ _ _ _ _ _ _ _ _ Hall Hafter).
Qed.

Lemma last_declared_first_witness :
  exists h' o' table xs ys zs,
    _populate acme 1 1 sample_heap
      = Done tt h'
    /\ h' !! 1 = Some o'
    /\ _reverse_dict o' !! "acme" = Some table
    /\ getlist (ByName "profile") table
       = xs ++ leaf_entry profile_new :: ys ++ leaf_entry profile_old :: zs
    /\ xs = [].
Proof.
  destruct (_populate acme 1 1 sample_heap)
    as [[] h'| | |] eqn:Hrun; try (vm_compute in Hrun; discriminate Hrun).
  destruct (last_declared_first acme 1 1
              sample_heap h' _ [] [] [] profile_old profile_new "profile"
              eq_refl eq_refl eq_refl eq_refl eq_refl Hrun)
    as (o' & table & xs & ys & zs & Ho' & Ht & Hlist & Hfirst).
  exists h', o', table, xs, ys, zs. repeat split; try assumption.
  apply Hfirst. constructor.
Defined.

(** ** Heap relations that every build respects

    A relation between heaps that is reflexive and transitive, holds across
    the three updates [_populate] makes, and hence across every build,
    nested builds included, whether the build returns or raises. *)

Section heap_relation.

Variable site : option Site.
Variable R : relation (gmap ref RegexURLResolver).

Hypothesis R_refl : forall h, R h h.
Hypothesis R_trans : forall h1 h2 h3, R h1 h2 -> R h2 h3 -> R h1 h3.
Hypothesis R_strs : forall h self o strs,
  h !! self = Some o -> R h (<[self := add_callback_strs strs o]> h).
Hypothesis R_enter : forall h self o,
  h !! self = Some o -> populating o = false ->
  R h (<[self := set_populating true o]> h).
Hypothesis R_leave : forall populate h self o h2 o2 lookups namespaces apps,
  h !! self = Some o -> populating o = false ->
  loop site populate self (rev (url_patterns o)) ([], ∅, ∅)
    (<[self := set_populating true o]> h) = Done (lookups, namespaces, apps) h2 ->
  R (<[self := set_populating true o]> h) h2 ->
  h2 !! self = Some o2 ->
  R h (<[self := store_tables (_get_path_prefix site) lookups namespaces apps
                   o2]> h2).

Lemma steps_ret {A} (a : A) : steps R (ret a).
Proof. intros h h' <-. apply R_refl. Qed.

Lemma steps_raise {A} e : steps R (@raise A e).
Proof. intros h h' <-. apply R_refl. Qed.

Lemma steps_get r : steps R (get r).
Proof. intros h h' H. apply get_exits in H as (o & _ & _ & ->). apply R_refl. Qed.

Lemma steps_add_callback_strs self strs :
  steps R (modify self (add_callback_strs strs)).
Proof.
  intros h h' H. apply modify_exits in H as (o & Ho & _ & ->).
  apply R_strs, Ho.
Qed.

Lemma steps_bind {A B} (m : M A) (k : A -> M B) :
  steps R m -> (forall a, steps R (k a)) -> steps R (bind m k).
Proof.
  intros Hm Hk h h' H. apply bind_exits in H as [H|(a & h1 & Ha & H)].
  - apply Hm, H.
  - eapply R_trans; [eapply Hm, Done_exits, Ha | eapply Hk, H].
Qed.

Section nested.

Variable populate : ref -> M unit.
Hypothesis populate_steps : forall r, steps R (populate r).

Lemma steps_reverse_dict_with self : steps R (reverse_dict_with site populate self).
Proof.
  unfold reverse_dict_with.
  apply steps_bind; [apply steps_get | intros o].
  apply steps_bind;
    [destruct (decide _); [apply steps_ret | apply populate_steps] | intros _].
  apply steps_bind; [apply steps_get | intros o'].
  destruct (_ !! _); [apply steps_ret | apply steps_raise].
Qed.

Lemma steps_namespace_dict_with self :
  steps R (namespace_dict_with site populate self).
Proof.
  unfold namespace_dict_with.
  apply steps_bind; [apply steps_get | intros o].
  apply steps_bind;
    [destruct (decide _); [apply steps_ret | apply populate_steps] | intros _].
  apply steps_bind; [apply steps_get | intros o'].
  destruct (_ !! _); [apply steps_ret | apply steps_raise].
Qed.

Lemma steps_app_dict_with self : steps R (app_dict_with site populate self).
Proof.
  unfold app_dict_with.
  apply steps_bind; [apply steps_get | intros o].
  apply steps_bind;
    [destruct (decide _); [apply steps_ret | apply populate_steps] | intros _].
  apply steps_bind; [apply steps_get | intros o'].
  destruct (_ !! _); [apply steps_ret | apply steps_raise].
Qed.

Lemma steps_merge_lookups pattern parent_pat p_pattern kw names lookups :
  steps R (merge_lookups site populate pattern parent_pat p_pattern kw names
             lookups).
Proof.
  revert lookups. induction names as [|name names IH]; intros lookups; simpl.
  - apply steps_ret.
  - apply steps_bind; [apply steps_reverse_dict_with | intros table]. apply IH.
Qed.

Lemma steps_visit self pattern acc : steps R (visit site populate self pattern acc).
Proof.
  destruct acc as [[lookups namespaces] apps], pattern as [p|r]; simpl.
  - apply steps_bind; [apply steps_add_callback_strs | intros _]. apply steps_ret.
  - apply steps_bind; [apply steps_get | intros o].
    apply steps_bind.
    + destruct (truthy_opt (namespace o)); [apply steps_ret|].
      apply steps_bind; [apply steps_reverse_dict_with | intros table].
      apply steps_bind; [apply steps_merge_lookups | intros lookups'].
      apply steps_bind; [apply steps_namespace_dict_with | intros ns].
      apply steps_bind; [apply steps_app_dict_with | intros ap].
      apply steps_ret.
    + intros acc.
      apply steps_bind; [apply steps_get | intros o1].
      apply steps_bind;
        [destruct (populating o1); [apply steps_ret | apply populate_steps]
        | intros _].
      apply steps_bind; [apply steps_get | intros o2].
      apply steps_bind; [apply steps_add_callback_strs | intros _].
      apply steps_ret.
Qed.

Lemma steps_loop self patterns acc : steps R (loop site populate self patterns acc).
Proof.
  revert acc. induction patterns as [|pattern rest IH]; intros acc; simpl.
  - apply steps_ret.
  - apply steps_bind; [apply steps_visit | intros acc']. apply IH.
Qed.

End nested.

Lemma steps_populate fuel self : steps R (_populate site fuel self).
Proof.
  revert self. induction fuel as [|fuel IH]; intros self h h';
    rewrite populate_unfold; destruct (h !! self) as [o|] eqn:Ho;
    try (intros []); destruct (populating o) eqn:Hp;
    try (intros <-; apply R_refl); try (intros []).
  unfold populate_body. intros H.
  apply bind_exits in H as [H|([] & h1 & Hm & H)].
  - apply modify_exits in H as (o' & Ho' & _ & ->).
    rewrite Ho in Ho'. injection Ho' as <-. apply R_enter; assumption.
  - apply modify_Done in Hm as (o' & Ho' & ->).
    rewrite Ho in Ho'. injection Ho' as <-.
    apply bind_exits in H as [H|(o1 & h1 & Hg & H)].
    { apply get_exits in H as (? & _ & _ & ->). apply R_enter; assumption. }
    apply get_Done in Hg as [Ho1 ->].
    rewrite lookup_insert_eq in Ho1. injection Ho1 as <-.
    change (url_patterns (set_populating true o)) with (url_patterns o) in H.
    apply bind_exits in H as [H|([[lookups namespaces] apps] & h2 & Hloop & H)].
    + eapply R_trans; [apply R_enter; eassumption|].
      eapply steps_loop; [exact IH | exact H].
    + apply modify_exits in H as (o2 & Ho2 & _ & ->).
      eapply R_leave; try eassumption.
      eapply steps_loop; [exact IH | eapply Done_exits, Hloop].
Qed.

End heap_relation.

(** ** The [populating] flag *)

Section flag_facts.

Variable site : option Site.

Lemma flags_kept_refl h : flags_kept h h.
Proof. intros r o Ho Hp. eauto. Qed.

Lemma flags_kept_trans h1 h2 h3 :
  flags_kept h1 h2 -> flags_kept h2 h3 -> flags_kept h1 h3.
Proof.
  intros H12 H23 r o Ho Hp. destruct (H12 r o Ho Hp) as (o' & Ho' & Hp'). eauto.
Qed.

(** An update of [self] that leaves a set flag set keeps the flags. *)
Lemma flags_kept_insert h self o f :
  h !! self = Some o -> (populating o = true -> populating (f o) = true) ->
  flags_kept h (<[self := f o]> h).
Proof.
  intros Ho Hf r o' Ho' Hp. destruct (decide (r = self)) as [->|Hne].
  - rewrite Ho in Ho'. injection Ho' as <-.
    exists (f o). rewrite lookup_insert_eq. auto.
  - exists o'. rewrite lookup_insert_ne by congruence. auto.
Qed.

(** Flags that are set stay set across a build, however it ends: a build
    clears the flag of its own resolver only, which was clear at entry. *)
Lemma flags_kept_populate fuel self : steps flags_kept (_populate site fuel self).
Proof.
  apply steps_populate.
  - apply flags_kept_refl.
  - apply flags_kept_trans.
  - intros h r o strs Ho. apply (flags_kept_insert h r o _ Ho). auto.
  - intros h r o Ho _. apply (flags_kept_insert h r o _ Ho). auto.
  - intros populate h r o h2 o2 lookups namespaces apps Ho Hp _ H12 Ho2 y oy Hy Hfy.
    assert (Hne : y <> r) by (intros ->; congruence).
    destruct (H12 y oy) as (oy' & Hy' & Hfy'); [|exact Hfy|].
    + rewrite lookup_insert_ne by congruence. exact Hy.
    + exists oy'. rewrite lookup_insert_ne by congruence. auto.
Qed.

Lemma flags_kept_loop fuel self patterns acc :
  steps flags_kept (loop site (_populate site fuel) self patterns acc).
Proof.
  apply steps_loop.
  - apply flags_kept_refl.
  - apply flags_kept_trans.
  - intros h r o strs Ho. apply (flags_kept_insert h r o _ Ho). auto.
  - intros r. apply flags_kept_populate.
Qed.

End flag_facts.

(** C2, as the code has it.  A build that passes the guard and returns
    leaves the [populating] flag of its resolver clear; a build that passes
    the guard and raises leaves it set: nothing resets the flag on the way
    out of an exception. *)
Theorem populate_flag_on_exit (site : option Site) (fuel : nat) (self : ref)
    (h h' : gmap ref RegexURLResolver) (o : RegexURLResolver) :
  h !! self = Some o -> populating o = false ->
  (_populate site fuel self h = Done tt h' ->
     exists o', h' !! self = Some o' /\ populating o' = false)
  /\ (forall e, _populate site fuel self h = Raise e h' ->
        exists o', h' !! self = Some o' /\ populating o' = true).
Proof.
  intros Ho Hp. split.
  - intros Hrun.
    apply (populate_Done_table _ _ _ _ _ _ Ho Hp) in Hrun
      as (? & ? & ? & ? & ? & o' & _ & Ho' & _ & Hp').
    eauto.
  - intros e. rewrite populate_unfold, Ho, Hp.
    destruct fuel as [|fuel]; [discriminate|]. unfold populate_body. intros H.
    apply bind_Raise in H as [H|([] & h1 & Hm & H)].
    { unfold modify in H. rewrite Ho in H. discriminate H. }
    apply modify_Done in Hm as (o0 & Ho0 & ->).
    rewrite Ho in Ho0. injection Ho0 as <-.
    apply bind_Raise in H as [H|(o1 & h1 & Hg & H)].
    { unfold get in H. rewrite lookup_insert_eq in H. discriminate H. }
    apply get_Done in Hg as [_ ->].
    apply bind_Raise in H as [H|([[lookups namespaces] apps] & h2 & _ & H)].
    + apply Raise_exits, flags_kept_loop in H.
      apply (H self (set_populating true o)); [apply lookup_insert_eq|reflexivity].
    + unfold modify in H. destruct (h2 !! self); discriminate H.
Qed.

Lemma populate_flag_on_exit_witness :
  exists h' o',
    _populate None 1 0 self_including_heap = Raise (KeyError "_") h'
    /\ h' !! 0 = Some o' /\ populating o' = true.
Proof.
  destruct (_populate None 1 0 self_including_heap)
    as [|e h'| |] eqn:Hrun; try (vm_compute in Hrun; discriminate Hrun).
  destruct (proj2 (populate_flag_on_exit None 1 0 self_including_heap h'
                     self_including eq_refl eq_refl) e Hrun)
    as (o' & Ho' & Hp').
  exists h', o'. split; [|auto].
  vm_compute in Hrun. injection Hrun as <- _. reflexivity.
Defined.

(** ** What a build leaves alone *)

Section pointwise_facts.

Variable site : option Site.
Variable Q : relation RegexURLResolver.

Hypothesis Q_refl : forall o, Q o o.
Hypothesis Q_trans : forall o1 o2 o3, Q o1 o2 -> Q o2 o3 -> Q o1 o3.
Hypothesis Q_strs : forall o strs, Q o (add_callback_strs strs o).
Hypothesis Q_flag : forall o b, Q o (set_populating b o).
Hypothesis Q_store : forall o lookups namespaces apps,
  Q o (store_tables (_get_path_prefix site) lookups namespaces apps o).

Lemma pointwise_refl h : pointwise Q h h.
Proof. intros r o Ho. eauto. Qed.

Lemma pointwise_trans h1 h2 h3 :
  pointwise Q h1 h2 -> pointwise Q h2 h3 -> pointwise Q h1 h3.
Proof.
  intros H12 H23 r o Ho. destruct (H12 r o Ho) as (o2 & Ho2 & Q12).
  destruct (H23 r o2 Ho2) as (o3 & Ho3 & Q23). eauto.
Qed.

Lemma pointwise_insert h self o o' :
  h !! self = Some o -> Q o o' -> pointwise Q h (<[self := o']> h).
Proof.
  intros Ho HQ r oy Hy. destruct (decide (r = self)) as [->|Hne].
  - rewrite Ho in Hy. injection Hy as <-. exists o'.
    rewrite lookup_insert_eq. auto.
  - exists oy. rewrite lookup_insert_ne by congruence. auto.
Qed.

Lemma pointwise_populate fuel self : steps (pointwise Q) (_populate site fuel self).
Proof.
  apply steps_populate.
  - apply pointwise_refl.
  - apply pointwise_trans.
  - intros h r o strs Ho. eapply pointwise_insert; [exact Ho | apply Q_strs].
  - intros h r o Ho _. eapply pointwise_insert; [exact Ho | apply Q_flag].
  - intros populate h r o h2 o2 lookups namespaces apps Ho _ _ H12 Ho2.
    eapply pointwise_trans;
      [eapply pointwise_insert; [exact Ho | apply Q_flag]|].
    eapply pointwise_trans; [exact H12|].
    eapply pointwise_insert; [exact Ho2 | apply Q_store].
Qed.

End pointwise_facts.

Section frame_facts.

Variable site : option Site.

Lemma same_static_refl o : same_static o o.
Proof. repeat split. Qed.

Lemma same_static_trans o1 o2 o3 :
  same_static o1 o2 -> same_static o2 o3 -> same_static o1 o3.
Proof.
  unfold same_static. intros (? & ? & ? & ? & ? & ?) (? & ? & ? & ? & ? & ?).
  repeat split; congruence.
Qed.

(** A build, however it ends, changes no class, pattern list, namespace,
    application name or default arguments. *)
Lemma static_kept fuel self :
  steps (pointwise same_static) (_populate site fuel self).
Proof.
  apply pointwise_populate.
  - apply same_static_refl.
  - apply same_static_trans.
  - intros o strs. repeat split.
  - intros o b. repeat split.
  - intros o lookups namespaces apps. repeat split.
Qed.

Lemma same_tables_except_trans prefix o1 o2 o3 :
  same_tables_except prefix o1 o2 -> same_tables_except prefix o2 o3 ->
  same_tables_except prefix o1 o3.
Proof.
  intros H12 H23 key Hne. destruct (H12 key Hne) as (? & ? & ?).
  destruct (H23 key Hne) as (? & ? & ?). repeat split; congruence.
Qed.

(** A build, however it ends, leaves the tables cached under every other
    prefix as they were, in every resolver. *)
Lemma other_prefixes_kept fuel self :
  steps (pointwise (same_tables_except (_get_path_prefix site)))
    (_populate site fuel self).
Proof.
  apply pointwise_populate.
  - intros o key _. auto.
  - apply same_tables_except_trans.
  - intros o strs key _. auto.
  - intros o b key _. auto.
  - intros o lookups namespaces apps key Hne. simpl.
    rewrite !lookup_insert_ne by congruence. auto.
Qed.

End frame_facts.

(** Every leaf the loop runs over has its tuple in the resulting table,
    under its callback and under its name. *)
Lemma loop_leaf_entries site populate self patterns lookups namespaces apps h
    lookups' namespaces' apps' h' p :
  loop site populate self patterns (lookups, namespaces, apps) h
    = Done (lookups', namespaces', apps') h' ->
  Pattern p ∈ patterns ->
  leaf_entry p ∈ getlist (ByCallback (callback p)) lookups'
  /\ forall n, name p = Some n -> leaf_entry p ∈ getlist (ByName n) lookups'.
Proof.
  revert lookups namespaces apps h.
  induction patterns as [|q rest IH]; intros lookups namespaces apps h Hloop Hin.
  - inversion Hin.
  - apply loop_cons in Hloop as ([[l1 n1] a1] & h1 & Hv & Hloop).
    apply elem_of_cons in Hin as [Heq|Hin]; [subst q|eapply IH; eassumption].
    pose proof (loop_grows _ _ _ _ _ _ _ _ _ _ _ _ Hloop) as Hg.
    split.
    + eapply grows_elem_of; [exact Hg|].
      rewrite (visit_leaf_getlist _ _ _ _ _ _ _ _ _ _ _ _ _ Hv).
      destruct (decide (ByCallback (callback p) = ByCallback (callback p)));
        [|congruence].
      apply elem_of_app. right. apply elem_of_app. left. apply list_elem_of_here.
    + intros n Hn. eapply grows_elem_of; [exact Hg|].
      rewrite (visit_leaf_getlist _ _ _ _ _ _ _ _ _ _ _ _ _ Hv), Hn.
      change (default "" (Some n)) with n.
      destruct (decide (Some n = None)); [discriminate|].
      destruct (decide (ByName n = ByName n)); [|congruence].
      rewrite !elem_of_app. right. right. apply list_elem_of_here.
Qed.

(** The table a returned build stored holds the tuple of every leaf of the
    resolver; the tuple does not depend on the prefix. *)
Lemma populate_leaf_entries site fuel self h o h' :
  h !! self = Some o -> populating o = false ->
  _populate site fuel self h = Done tt h' ->
  exists o' table,
    h' !! self = Some o'
    /\ _reverse_dict o' !! _get_path_prefix site = Some table
    /\ populating o' = false
    /\ url_patterns o' = url_patterns o
    /\ forall p, Pattern p ∈ url_patterns o ->
         leaf_entry p ∈ getlist (ByCallback (callback p)) table
         /\ forall n, name p = Some n -> leaf_entry p ∈ getlist (ByName n) table.
Proof.
  intros Ho Hp Hrun.
  destruct (static_kept site fuel self h h' (Done_exits _ _ _ Hrun) self o Ho)
    as (o1 & Ho1 & _ & _ & Hpatterns & _).
  apply (populate_Done_table _ _ _ _ _ _ Ho Hp) in Hrun
    as (fuel' & lookups & namespaces & apps & h2 & o' & Hloop & Ho' & Ht & Hp').
  rewrite Ho1 in Ho'. injection Ho' as <-.
  exists o1, lookups. repeat split; try assumption.
  - eapply loop_leaf_entries; [exact Hloop|].
    apply list_elem_of_In, in_rev. rewrite rev_involutive.
    apply list_elem_of_In. assumption.
  - eapply loop_leaf_entries; [exact Hloop|].
    apply list_elem_of_In, in_rev. rewrite rev_involutive.
    apply list_elem_of_In. assumption.
Qed.

(** ** Where the prefix enters: merging an anonymous include *)

Section sound_facts.

Variable site : option Site.

Lemma tables_sound_insert h self o o' :
  h !! self = Some o -> _reverse_dict o' = _reverse_dict o ->
  url_patterns o' = url_patterns o ->
  tables_sound (_get_path_prefix site) h ->
  tables_sound (_get_path_prefix site) (<[self := o']> h).
Proof.
  intros Ho Hd Hu Hs r oy table p key Hy Ht Hp Hk.
  destruct (decide (r = self)) as [->|Hne].
  - rewrite lookup_insert_eq in Hy. injection Hy as <-.
    rewrite Hd in Ht. rewrite Hu in Hp. eapply Hs; eassumption.
  - rewrite lookup_insert_ne in Hy by congruence. eapply Hs; eassumption.
Qed.

Lemma sound_kept_insert h self o o' :
  h !! self = Some o -> same_static o o' -> _reverse_dict o' = _reverse_dict o ->
  sound_kept (_get_path_prefix site) h (<[self := o']> h).
Proof.
  intros Ho Hst Hd. split.
  - exact (pointwise_insert same_static same_static_refl _ _ _ _ Ho Hst).
  - apply (tables_sound_insert h self o o' Ho Hd). apply Hst.
Qed.

Lemma sound_kept_refl h : sound_kept (_get_path_prefix site) h h.
Proof. split; [exact (pointwise_refl same_static same_static_refl h) | auto]. Qed.

Lemma sound_kept_trans h1 h2 h3 :
  sound_kept (_get_path_prefix site) h1 h2 ->
  sound_kept (_get_path_prefix site) h2 h3 ->
  sound_kept (_get_path_prefix site) h1 h3.
Proof.
  intros [S12 T12] [S23 T23]. split; [|auto].
  exact (pointwise_trans same_static same_static_trans _ _ _ S12 S23).
Qed.

Lemma registers_entries p (table : MultiValueDict) :
  (leaf_entry p ∈ getlist (ByCallback (callback p)) table
   /\ forall n, name p = Some n -> leaf_entry p ∈ getlist (ByName n) table) ->
  forall key, registers p key -> leaf_entry p ∈ getlist key table.
Proof. intros [Hc Hn] key [->|(n & Hname & ->)]; auto. Qed.

(** Builds keep the cached tables sound. *)
Lemma sound_kept_populate fuel self :
  steps (sound_kept (_get_path_prefix site)) (_populate site fuel self).
Proof.
  apply steps_populate.
  - apply sound_kept_refl.
  - apply sound_kept_trans.
  - intros h r o strs Ho.
    apply (sound_kept_insert h r o _ Ho); [repeat split | reflexivity].
  - intros h r o Ho _.
    apply (sound_kept_insert h r o _ Ho); [repeat split | reflexivity].
  - intros populate h r o h2 o2 lookups namespaces apps Ho _ Hloop [S12 T12] Ho2.
    destruct (S12 r (set_populating true o)) as (o2' & Ho2' & Hst);
      [apply lookup_insert_eq|].
    rewrite Ho2 in Ho2'. injection Ho2' as <-.
    split.
    + assert (S01 : pointwise same_static h (<[r := set_populating true o]> h)).
      { apply (pointwise_insert same_static same_static_refl _ _ _ _ Ho).
        repeat split. }
      assert (S23 : pointwise same_static h2
                      (<[r := store_tables (_get_path_prefix site) lookups
                                namespaces apps o2]> h2)).
      { apply (pointwise_insert same_static same_static_refl _ _ _ _ Ho2).
        repeat split. }
      exact (pointwise_trans same_static same_static_trans _ _ _ S01
               (pointwise_trans same_static same_static_trans _ _ _ S12 S23)).
    + intros Hs y oy table p key Hy Ht Hp Hk.
      assert (Hs2 : tables_sound (_get_path_prefix site) h2).
      { apply T12.
        apply (tables_sound_insert h r o (set_populating true o) Ho); auto. }
      destruct (decide (y = r)) as [->|Hne].
      * rewrite lookup_insert_eq in Hy. injection Hy as <-.
        simpl in Ht, Hp. rewrite lookup_insert_eq in Ht. injection Ht as <-.
        destruct Hst as (_ & _ & Hu & _). rewrite Hu in Hp. simpl in Hp.
        apply registers_entries; [|exact Hk].
        eapply loop_leaf_entries; [exact Hloop|].
        apply list_elem_of_In, in_rev. rewrite rev_involutive.
        apply list_elem_of_In. assumption.
      * rewrite lookup_insert_ne in Hy by congruence. eapply Hs2; eassumption.
Qed.

Lemma getlist_keys (e : entry) key d : e ∈ getlist key d -> key ∈ keys d.
Proof.
  induction d as [|[k vs] d IH]; simpl; [inversion 1|].
  destruct (decide (k = key)) as [->|Hne]; intros He.
  - apply list_elem_of_here.
  - apply list_elem_of_further, IH, He.
Qed.

Section merge.

Variable fuel : nat.
Variable s : ref.
Variable os : RegexURLResolver.
Variable p : RegexURLPattern.
Variable key : lookup_key.

Hypothesis leaf_of_s : Pattern p ∈ url_patterns os.
Hypothesis key_of_p : registers p key.
Hypothesis anonymous : truthy_opt (namespace os) = false.

Lemma merging_kept h h' :
  sound_kept (_get_path_prefix site) h h' ->
  merging (_get_path_prefix site) s os h ->
  merging (_get_path_prefix site) s os h'.
Proof.
  intros [Hst Hs] [Hsound (o & Ho & Hos)]. split; [auto|].
  destruct (Hst s o Ho) as (o' & Ho' & Hoo'). exists o'. split; [exact Ho'|].
  eapply same_static_trans; eassumption.
Qed.

Lemma reverse_dict_merging h table h' :
  merging (_get_path_prefix site) s os h ->
  reverse_dict_with site (_populate site fuel) s h = Done table h' ->
  merging (_get_path_prefix site) s os h'
  /\ leaf_entry p ∈ getlist key table.
Proof.
  intros HJ Hrun.
  assert (HJ' : merging (_get_path_prefix site) s os h').
  { eapply merging_kept; [|exact HJ].
    eapply steps_reverse_dict_with;
      [apply sound_kept_refl | apply sound_kept_trans
      | intros r; apply sound_kept_populate | eapply Done_exits, Hrun]. }
  split; [exact HJ'|].
  apply reverse_dict_with_Done in Hrun as (o' & Ho' & Ht).
  destruct HJ' as [Hsound (o & Ho & _ & _ & Hu & _)].
  rewrite Ho' in Ho. injection Ho as <-.
  eapply Hsound; try eassumption. rewrite Hu. exact leaf_of_s.
Qed.

Lemma merge_lookups_merging parent_pat p_pattern kw names lookups h lookups' h' :
  merging (_get_path_prefix site) s os h -> key ∈ names ->
  merge_lookups site (_populate site fuel) s parent_pat p_pattern kw names
    lookups h = Done lookups' h' ->
  merged_entry parent_pat p_pattern kw (leaf_entry p) ∈ getlist key lookups'.
Proof.
  revert lookups h. induction names as [|name names IH]; intros lookups h HJ Hin.
  - inversion Hin.
  - simpl. intros H. apply bind_Done in H as (table & h1 & Ht & H).
    destruct (reverse_dict_merging _ _ _ HJ Ht) as [HJ1 He].
    apply elem_of_cons in Hin as [Heq|Hin]; [subst name|eapply IH; eassumption].
    eapply grows_elem_of; [eapply merge_lookups_grows, H|].
    rewrite getlist_foldl_appendlist.
    destruct (decide (key = key)); [|congruence].
    apply elem_of_app. right.
    exact (list_elem_of_fmap_2 (merged_entry parent_pat p_pattern kw) _ _ He).
Qed.

Lemma loop_merges self patterns lookups namespaces apps h lookups' namespaces'
    apps' h' :
  merging (_get_path_prefix site) s os h -> Resolver s ∈ patterns ->
  loop site (_populate site fuel) self patterns (lookups, namespaces, apps) h
    = Done (lookups', namespaces', apps') h' ->
  merged_entry (regex_pattern site os) (strip_caret (regex_pattern site os))
    (default_kwargs os) (leaf_entry p) ∈ getlist key lookups'.
Proof.
  revert lookups namespaces apps h.
  induction patterns as [|q rest IH]; intros lookups namespaces apps h HJ Hin Hloop.
  - inversion Hin.
  - apply loop_cons in Hloop as ([[l1 n1] a1] & h1 & Hv & Hloop).
    apply elem_of_cons in Hin as [Heq|Hin].
    + subst q. eapply grows_elem_of; [eapply loop_grows, Hloop|].
      apply visit_Resolver_Done in Hv as (o & Ho & Hcases).
      destruct HJ as [Hsound (o0 & Ho0 & Hst)].
      rewrite Ho in Ho0. injection Ho0 as <-.
      assert (Hre : regex_pattern site o = regex_pattern site os).
      { unfold regex_pattern. destruct Hst as (-> & -> & _). reflexivity. }
      assert (Hns : namespace o = namespace os) by apply Hst.
      assert (Hkw : default_kwargs o = default_kwargs os) by apply Hst.
      rewrite Hns, anonymous, Hre, Hkw in Hcases.
      destruct Hcases as [[Hc _]|(_ & table & h2 & h3 & Ht & Hm)];
        [discriminate|].
      assert (HJ0 : merging (_get_path_prefix site) s os h) by (split; eauto).
      destruct (reverse_dict_merging _ _ _ HJ0 Ht) as [HJ2 He].
      eapply merge_lookups_merging; [exact HJ2 | eapply getlist_keys, He | exact Hm].
    + eapply IH; [|exact Hin|exact Hloop].
      eapply merging_kept; [|exact HJ].
      eapply steps_visit;
        [apply sound_kept_refl | apply sound_kept_trans
        | intros h0 r0 o0 strs Ho0;
          apply (sound_kept_insert h0 r0 o0 _ Ho0); [repeat split | reflexivity]
        | intros r; apply sound_kept_populate | eapply Done_exits, Hv].
Qed.

End merge.

(** Building a resolver over sound tables merges, for every leaf of an
    anonymous child, the child's tuple with the child's own pattern put in
    front. *)
Lemma populate_merges fuel self h o h' s os p key :
  tables_sound (_get_path_prefix site) h ->
  h !! self = Some o -> populating o = false ->
  Resolver s ∈ url_patterns o -> h !! s = Some os ->
  truthy_opt (namespace os) = false ->
  Pattern p ∈ url_patterns os -> registers p key ->
  _populate site fuel self h = Done tt h' ->
  exists o' table,
    h' !! self = Some o'
    /\ _reverse_dict o' !! _get_path_prefix site = Some table
    /\ merged_entry (regex_pattern site os) (strip_caret (regex_pattern site os))
         (default_kwargs os) (leaf_entry p) ∈ getlist key table.
Proof.
  intros Hsound Ho Hp Hs Hos Hanon Hleaf Hkey Hrun.
  apply (populate_Done_table _ _ _ _ _ _ Ho Hp) in Hrun
    as (fuel' & lookups & namespaces & apps & h2 & o' & Hloop & Ho' & Ht & _).
  exists o', lookups. split; [exact Ho'|]. split; [exact Ht|].
  eapply (loop_merges fuel' s os p key Hleaf Hkey Hanon); [| |exact Hloop].
  - split;
      [apply (tables_sound_insert h self o (set_populating true o) Ho); auto|].
    destruct (decide (s = self)) as [->|Hne].
    + rewrite Ho in Hos. injection Hos as <-.
      exists (set_populating true o). rewrite lookup_insert_eq. repeat split.
    + exists os. rewrite lookup_insert_ne by congruence.
      split; [exact Hos | apply same_static_refl].
  - apply list_elem_of_In, in_rev. rewrite rev_involutive.
    apply list_elem_of_In. assumption.
Qed.

End sound_facts.

(** A build whose loop returns stores the tables and returns. *)
Lemma populate_body_returns site populate self h o lookups namespaces apps h2
    o2 :
  h !! self = Some o ->
  loop site populate self (rev (url_patterns o)) ([], ∅, ∅)
    (<[self := set_populating true o]> h)
  = Done (lookups, namespaces, apps) h2 ->
  h2 !! self = Some o2 ->
  populate_body site populate self h
  = Done tt (<[self := store_tables (_get_path_prefix site) lookups namespaces
                         apps o2]> h2).
Proof.
  intros Ho Hloop Ho2. unfold populate_body, bind, modify, get.
  rewrite Ho, lookup_insert_eq.
  change (url_patterns (set_populating true o)) with (url_patterns o).
  rewrite Hloop, Ho2. reflexivity.
Qed.

(** ** Builds return on a pattern graph without cycles *)

Section termination.

Variable site : option Site.
Variable rank : ref -> nat.

Lemma settled_refl o : settled o o.
Proof. split; [apply same_static_refl | reflexivity]. Qed.

Lemma settled_trans o1 o2 o3 : settled o1 o2 -> settled o2 o3 -> settled o1 o3.
Proof.
  intros [S12 F12] [S23 F23].
  split; [eapply same_static_trans; eassumption | congruence].
Qed.

Lemma quiet_refl h : quiet h h.
Proof. split; [reflexivity | exact (pointwise_refl settled settled_refl h)]. Qed.

Lemma quiet_trans h1 h2 h3 : quiet h1 h2 -> quiet h2 h3 -> quiet h1 h3.
Proof.
  intros [D12 P12] [D23 P23]. split; [congruence|].
  exact (pointwise_trans settled settled_trans _ _ _ P12 P23).
Qed.

Lemma quiet_insert h r o o' :
  h !! r = Some o -> settled o o' -> quiet h (<[r := o']> h).
Proof.
  intros Ho Hs. split.
  - apply dom_insert_lookup_L. eauto.
  - exact (pointwise_insert settled settled_refl _ _ _ _ Ho Hs).
Qed.

(** Under [quiet], what [h'] holds at [r] comes from what [h] held. *)
Lemma quiet_lookup_inv h h' r o' :
  quiet h h' -> h' !! r = Some o' -> exists o, h !! r = Some o /\ settled o o'.
Proof.
  intros [Hdom Hp] Ho'.
  assert (Hin : r ∈ dom h) by (rewrite <- Hdom; apply elem_of_dom; eauto).
  apply elem_of_dom in Hin as [o Ho].
  destruct (Hp r o Ho) as (o'' & Ho'' & Hs).
  rewrite Ho' in Ho''. injection Ho'' as <-. eauto.
Qed.

Lemma calm_quiet bound refs h h' :
  calm rank bound refs h -> quiet h h' -> calm rank bound refs h'.
Proof.
  intros (Hdom & Hwf & Hidle) Hq. split; [|split].
  - destruct Hq as [Hd _]. congruence.
  - intros r o' c Ho' Hc.
    destruct (quiet_lookup_inv _ _ _ _ Hq Ho') as (o & Ho & (_ & _ & Hu & _) & _).
    rewrite Hu in Hc. destruct (Hwf r o c Ho Hc) as [[oc Hoc] Hlt].
    split; [|exact Hlt].
    destruct Hq as [_ Hp]. destruct (Hp c oc Hoc) as (oc' & Hoc' & _). eauto.
  - intros r o' Ho' Hlt.
    destruct (quiet_lookup_inv _ _ _ _ Hq Ho') as (o & Ho & _ & Hf).
    rewrite Hf. eapply Hidle; eassumption.
Qed.

Section returns_facts.

Variable bound : nat.
Variable refs : gset ref.

Lemma returns_ret {A} (a : A) : returns (calm rank bound refs) (ret a).
Proof. intros h _. exists a, h. split; [reflexivity | apply quiet_refl]. Qed.

Lemma returns_bind {A B} (m : M A) (k : A -> M B) :
  returns (calm rank bound refs) m ->
  (forall a, returns (calm rank bound refs) (k a)) ->
  returns (calm rank bound refs) (bind m k).
Proof.
  intros Hm Hk h Hgood. destruct (Hm h Hgood) as (a & h1 & Ha & Hq1).
  destruct (Hk a h1 (calm_quiet _ _ _ _ Hgood Hq1)) as (b & h2 & Hb & Hq2).
  exists b, h2. split; [|eapply quiet_trans; eassumption].
  unfold bind. rewrite Ha. exact Hb.
Qed.

Lemma calm_lookup h r : calm rank bound refs h -> r ∈ refs -> is_Some (h !! r).
Proof. intros (Hdom & _) Hr. apply elem_of_dom. rewrite Hdom. exact Hr. Qed.

Lemma returns_get r : r ∈ refs -> returns (calm rank bound refs) (get r).
Proof.
  intros Hr h Hgood. destruct (calm_lookup h r Hgood Hr) as [o Ho].
  exists o, h. unfold get. rewrite Ho. split; [reflexivity | apply quiet_refl].
Qed.

Lemma returns_add_callback_strs self strs :
  self ∈ refs ->
  returns (calm rank bound refs) (modify self (add_callback_strs strs)).
Proof.
  intros Hr h Hgood. destruct (calm_lookup h self Hgood Hr) as [o Ho].
  exists tt, (<[self := add_callback_strs strs o]> h). unfold modify. rewrite Ho.
  split; [reflexivity|]. apply (quiet_insert h self o _ Ho). repeat split.
Qed.

Section with_populate.

Variable populate : ref -> M unit.

(** The nested builds return and leave their three tables. *)
Hypothesis nested_return : forall c h,
  c ∈ refs -> rank c < bound -> calm rank bound refs h ->
  exists h', populate c h = Done tt h' /\ quiet h h'
             /\ cached (_get_path_prefix site) c h'.

Lemma returns_populate c :
  c ∈ refs -> rank c < bound -> returns (calm rank bound refs) (populate c).
Proof.
  intros Hc Hlt h Hgood.
  destruct (nested_return c h Hc Hlt Hgood) as (h' & Hrun & Hq & _).
  exists tt, h'. auto.
Qed.

Lemma returns_reverse_dict_with c :
  c ∈ refs -> rank c < bound ->
  returns (calm rank bound refs) (reverse_dict_with site populate c).
Proof.
  intros Hc Hlt h Hgood. unfold reverse_dict_with, bind, get.
  destruct (calm_lookup h c Hgood Hc) as [o Ho]. rewrite Ho.
  destruct (decide (is_Some (_reverse_dict o !! _get_path_prefix site)))
    as [[table Ht]|_].
  - exists table, h. unfold ret. rewrite Ho, Ht.
    split; [reflexivity | apply quiet_refl].
  - destruct (nested_return c h Hc Hlt Hgood)
      as (h' & -> & Hq & o' & Ho' & [table Ht] & _).
    exists table, h'. rewrite Ho', Ht. split; [reflexivity | exact Hq].
Qed.

Lemma returns_namespace_dict_with c :
  c ∈ refs -> rank c < bound ->
  returns (calm rank bound refs) (namespace_dict_with site populate c).
Proof.
  intros Hc Hlt h Hgood. unfold namespace_dict_with, bind, get.
  destruct (calm_lookup h c Hgood Hc) as [o Ho]. rewrite Ho.
  destruct (decide (is_Some (_namespace_dict o !! _get_path_prefix site)))
    as [[table Ht]|_].
  - exists table, h. unfold ret. rewrite Ho, Ht.
    split; [reflexivity | apply quiet_refl].
  - destruct (nested_return c h Hc Hlt Hgood)
      as (h' & -> & Hq & o' & Ho' & _ & [table Ht] & _).
    exists table, h'. rewrite Ho', Ht. split; [reflexivity | exact Hq].
Qed.

Lemma returns_app_dict_with c :
  c ∈ refs -> rank c < bound ->
  returns (calm rank bound refs) (app_dict_with site populate c).
Proof.
  intros Hc Hlt h Hgood. unfold app_dict_with, bind, get.
  destruct (calm_lookup h c Hgood Hc) as [o Ho]. rewrite Ho.
  destruct (decide (is_Some (_app_dict o !! _get_path_prefix site)))
    as [[table Ht]|_].
  - exists table, h. unfold ret. rewrite Ho, Ht.
    split; [reflexivity | apply quiet_refl].
  - destruct (nested_return c h Hc Hlt Hgood)
      as (h' & -> & Hq & o' & Ho' & _ & _ & [table Ht]).
    exists table, h'. rewrite Ho', Ht. split; [reflexivity | exact Hq].
Qed.

Lemma returns_merge_lookups c parent_pat p_pattern kw names lookups :
  c ∈ refs -> rank c < bound ->
  returns (calm rank bound refs)
    (merge_lookups site populate c parent_pat p_pattern kw names lookups).
Proof.
  intros Hc Hlt. revert lookups.
  induction names as [|name names IH]; intros lookups; simpl.
  - apply returns_ret.
  - apply returns_bind; [apply returns_reverse_dict_with; assumption|].
    intros table. apply IH.
Qed.

Lemma returns_visit self pattern acc :
  self ∈ refs ->
  (forall c, pattern = Resolver c -> c ∈ refs /\ rank c < bound) ->
  returns (calm rank bound refs) (visit site populate self pattern acc).
Proof.
  intros Hself Hchild.
  destruct acc as [[lookups namespaces] apps], pattern as [p|c]; simpl.
  - apply returns_bind; [apply returns_add_callback_strs, Hself | intros _].
    apply returns_ret.
  - destruct (Hchild c eq_refl) as [Hc Hlt].
    apply returns_bind; [apply returns_get, Hc | intros o].
    apply returns_bind.
    + destruct (truthy_opt (namespace o)); [apply returns_ret|].
      apply returns_bind; [apply returns_reverse_dict_with; assumption|].
      intros table.
      apply returns_bind; [apply returns_merge_lookups; assumption|].
      intros lookups'.
      apply returns_bind; [apply returns_namespace_dict_with; assumption|].
      intros ns.
      apply returns_bind; [apply returns_app_dict_with; assumption|].
      intros ap. apply returns_ret.
    + intros acc.
      apply returns_bind; [apply returns_get, Hc | intros o1].
      apply returns_bind;
        [destruct (populating o1);
           [apply returns_ret | apply returns_populate; assumption]
        | intros _].
      apply returns_bind; [apply returns_get, Hc | intros o2].
      apply returns_bind; [apply returns_add_callback_strs, Hself | intros _].
      apply returns_ret.
Qed.

Lemma returns_loop self patterns acc :
  self ∈ refs ->
  (forall c, Resolver c ∈ patterns -> c ∈ refs /\ rank c < bound) ->
  returns (calm rank bound refs) (loop site populate self patterns acc).
Proof.
  intros Hself. revert acc.
  induction patterns as [|pattern rest IH]; intros acc Hchildren; simpl.
  - apply returns_ret.
  - apply returns_bind.
    + apply returns_visit; [exact Hself|].
      intros c ->. apply Hchildren, list_elem_of_here.
    + intros acc'. apply IH. intros c Hc.
      apply Hchildren, list_elem_of_further, Hc.
Qed.

End with_populate.

End returns_facts.

(** On a pattern graph without cycles, a build of a resolver returns as
    soon as the fuel exceeds the resolver's rank and neither the resolver
    nor anything below it is being built; it leaves the three tables
    cached and every flag as it found it. *)
Lemma populate_returns fuel : forall r h,
  well_founded_graph rank h -> idle_below rank (S (rank r)) h ->
  is_Some (h !! r) -> rank r < fuel ->
  exists h', _populate site fuel r h = Done tt h' /\ quiet h h'
             /\ cached (_get_path_prefix site) r h'.
Proof.
  induction fuel as [|fuel IH]; intros r h Hwf Hidle [o Ho] Hfuel; [lia|].
  assert (Hp : populating o = false) by (eapply Hidle; [exact Ho | lia]).
  rewrite populate_unfold, Ho, Hp.
  set (h1 := <[r := set_populating true o]> h).
  assert (Hdom1 : dom h1 = dom h) by (apply dom_insert_lookup_L; eauto).
  assert (Hgood : calm rank (rank r) (dom h) h1).
  { split; [exact Hdom1|]. split.
    - intros x ox c Hx Hc. unfold h1 in Hx.
      destruct (decide (x = r)) as [->|Hne].
      + rewrite lookup_insert_eq in Hx. injection Hx as <-.
        destruct (Hwf r o c Ho Hc) as [Hsome Hlt]. split; [|exact Hlt].
        apply elem_of_dom. rewrite Hdom1. apply elem_of_dom, Hsome.
      + rewrite lookup_insert_ne in Hx by congruence.
        destruct (Hwf x ox c Hx Hc) as [Hsome Hlt]. split; [|exact Hlt].
        apply elem_of_dom. rewrite Hdom1. apply elem_of_dom, Hsome.
    - intros x ox Hx Hlt. unfold h1 in Hx.
      rewrite lookup_insert_ne in Hx by (intros ->; lia).
      eapply Hidle; [exact Hx | lia]. }
  assert (Hnested : forall c hc,
            c ∈ dom h -> rank c < rank r -> calm rank (rank r) (dom h) hc ->
            exists h', _populate site fuel c hc = Done tt h' /\ quiet hc h'
                       /\ cached (_get_path_prefix site) c h').
  { intros c hc Hc Hlt (Hd & Hwfc & Hidlec).
    apply IH; [exact Hwfc| |apply elem_of_dom; rewrite Hd; exact Hc|lia].
    intros x ox Hx Hltx. eapply Hidlec; [exact Hx | lia]. }
  assert (Hchildren : forall c, Resolver c ∈ rev (url_patterns o) ->
                        c ∈ dom h /\ rank c < rank r).
  { intros c Hc. apply list_elem_of_In, in_rev, list_elem_of_In in Hc.
    destruct (Hwf r o c Ho Hc) as [Hsome Hlt].
    split; [apply elem_of_dom, Hsome | exact Hlt]. }
  assert (Hself : r ∈ dom h) by (apply elem_of_dom; eauto).
  destruct (returns_loop (rank r) (dom h) (_populate site fuel) Hnested r
              (rev (url_patterns o)) ([], ∅, ∅) Hself Hchildren h1 Hgood)
    as ([[lookups namespaces] apps] & h2 & Hloop & Hq12).
  destruct Hq12 as [Hdom2 Hp12].
  destruct (Hp12 r (set_populating true o)) as (o2 & Ho2 & Hst2 & _);
    [apply lookup_insert_eq|].
  rewrite (populate_body_returns _ _ _ _ _ _ _ _ _ _ Ho Hloop Ho2).
  eexists. split; [reflexivity|]. split.
  - split.
    + rewrite dom_insert_lookup_L by eauto. congruence.
    + intros x ox Hx. destruct (decide (x = r)) as [->|Hne].
      * rewrite Ho in Hx. injection Hx as <-. eexists.
        rewrite lookup_insert_eq. split; [reflexivity|].
        split; [|simpl; congruence].
        eapply same_static_trans; [|eapply same_static_trans; [exact Hst2|]];
          repeat split.
      * rewrite lookup_insert_ne by congruence. apply Hp12. unfold h1.
        rewrite lookup_insert_ne by congruence. exact Hx.
  - eexists. rewrite lookup_insert_eq. split; [reflexivity|]. simpl.
    rewrite !lookup_insert_eq. eauto.
Qed.

End termination.

Lemma strip_caret_site_regex site :
  strip_caret (SiteRegexURLResolver_regex site) = site_prefix site.
Proof.
  unfold SiteRegexURLResolver_regex, site_prefix.
  destruct (decide _); reflexivity.
Qed.

Lemma tables_sound_fresh prefix (h : gmap ref RegexURLResolver) :
  map_Forall (fun _ o => _reverse_dict o = ∅) h -> tables_sound prefix h.
Proof.
  intros Hfresh r o table p key Ho Ht. rewrite (Hfresh r o Ho) in Ht.
  rewrite lookup_empty in Ht. discriminate Ht.
Qed.




(* ===================================================================== *)
(** * Part V: further properties of [models.py] *)
(* ===================================================================== *)

Section site_method_facts.

Lemma find_pk_Some rows key b :
  List.find (fun s => pk s =? key) rows = Some b -> b ∈ rows /\ pk b = key.
Proof.
  intros H. apply List.find_some in H as [Hin Hpk].
  split; [apply list_elem_of_In, Hin | apply Nat.eqb_eq, Hpk].
Qed.

Lemma templates_last self :
  last (get_templates self) = Some (as_subdomain self).
Proof.
  unfold get_templates, as_subdomain.
  destruct (truthy_text (theme self)), (truthy (subdomain self)); reflexivity.
Qed.

End site_method_facts.

(** X1.  The candidate themes of a site always end with the name the site
    answers to ([as_subdomain], which [printable_name] equals), always hold
    the slug, and number between one and three. *)
Theorem templates_end_with_subdomain (self : Site) :
  last (get_templates self) = Some (as_subdomain self)
  /\ slug self ∈ get_templates self
  /\ printable_name self = as_subdomain self
  /\ 1 <= length (get_templates self) <= 3.
Proof.
  unfold get_templates, as_subdomain, printable_name.
  destruct (truthy_text (theme self)), (truthy (subdomain self)); simpl;
    repeat split; try lia; set_solver.
Qed.

(** X2.  A site without a base is its own base and no alias; [as_base]
    fails exactly when [is_alias] fails (the base row is missing); and for
    an alias, [as_base] is a row of the table with the key [base_id] whose
    slug is the alias's subdomain, and when that slug is not empty it is the
    name the alias answers to and the last of its candidate themes. *)
Theorem alias_of_base (rows : list Site) (self : Site) :
  (truthy_key (base_id self) = false ->
     as_base rows self = Some self /\ is_alias rows self = Some false)
  /\ (as_base rows self = None <-> is_alias rows self = None)
  /\ (is_alias rows self = Some true ->
      exists b,
        as_base rows self = Some b /\ b ∈ rows
        /\ base_id self = Some (pk b)
        /\ subdomain self = slug b
        /\ (slug b <> "" ->
            as_subdomain self = slug b
            /\ last (get_templates self) = Some (slug b))).
Proof.
  unfold as_base, is_alias. split; [|split].
  - intros ->. auto.
  - destruct (truthy_key (base_id self)); [|split; discriminate].
    destruct (base rows self); split; congruence.
  - destruct (truthy_key (base_id self)) eqn:Hkey; [|discriminate].
    destruct (base rows self) as [b|] eqn:Hb; [|discriminate].
    intros [= Heq]. apply bool_decide_eq_true in Heq.
    apply find_pk_Some in Hb as [Hin Hpk].
    exists b. split; [reflexivity|]. split; [exact Hin|]. split.
    + destruct (base_id self) as [[|k]|]; try discriminate.
      simpl in Hpk. congruence.
    + split; [exact Heq|]. intros Hne.
      assert (Ht : truthy (subdomain self) = true).
      { rewrite Heq. destruct (slug b); [congruence | reflexivity]. }
      pose proof (templates_last self) as Hlast.
      unfold as_subdomain in *. rewrite Ht in *. rewrite <- Heq. auto.
Qed.

Lemma alias_of_base_witness :
  exists b,
    as_base [base_row; alias_row] alias_row = Some b
    /\ b ∈ [base_row; alias_row]
    /\ base_id alias_row = Some (pk b)
    /\ subdomain alias_row = slug b
    /\ (slug b <> "" ->
        as_subdomain alias_row = slug b
        /\ last (get_templates alias_row) = Some (slug b)).
Proof.
  apply (proj2 (proj2 (alias_of_base [base_row; alias_row] alias_row))).
  reflexivity.
Defined.

Section validator_facts.

Lemma contains_elem_of s value :
  contains s value = true <-> s ∈ list_ascii_of_string value.
Proof.
  induction value as [|c rest IH]; simpl.
  - split; [discriminate | inversion 1].
  - rewrite orb_true_iff, IH, elem_of_cons, Ascii.eqb_eq. reflexivity.
Qed.

Lemma existsb_whitespace value :
  existsb id (map (fun s => contains s value) whitespace) = true
  <-> exists s, s ∈ whitespace /\ s ∈ list_ascii_of_string value.
Proof.
  rewrite existsb_exists. split.
  - intros (b & Hin & Hb). apply in_map_iff in Hin as (s & <- & Hs).
    exists s. split; [apply list_elem_of_In, Hs | apply contains_elem_of, Hb].
  - intros (s & Hs & Hv). exists true. split; [|reflexivity].
    apply in_map_iff. exists s.
    split; [apply contains_elem_of, Hv | apply list_elem_of_In, Hs].
Qed.

Lemma list_ascii_of_string_app a b :
  list_ascii_of_string (a +:+ b)
  = list_ascii_of_string a ++ list_ascii_of_string b.
Proof.
  induction a as [|c a IH]; simpl; [reflexivity | rewrite IH; reflexivity].
Qed.

Lemma two_segments_context pre s post :
  two_segments s -> two_segments (pre ++ s ++ post).
Proof.
  intros (pre' & c & mid & d & post' & -> & Hc & Hmid & Hd).
  exists (pre ++ pre'), c, mid, d, (post' ++ post).
  repeat split; try assumption.
  rewrite <- !app_assoc. simpl. rewrite <- !app_assoc. reflexivity.
Qed.

Lemma filter_failures_nil (outcomes : list outcome) :
  filter (fun o => o <> Returns) outcomes = []
  <-> Forall (fun o => o = Returns) outcomes.
Proof.
  induction outcomes as [|o rest IH]; [split; [constructor | reflexivity]|].
  destruct (decide (o = Returns)) as [->|Hne].
  - rewrite filter_cons_False by (intros H; apply H; reflexivity).
    rewrite IH. split; [constructor; auto | inversion 1; auto].
  - rewrite filter_cons_True by assumption.
    split; [discriminate | inversion 1; contradiction].
Qed.

Lemma domain_name_validator_iff value :
  domain_name_validator value = Returns
  <-> value = ""
      \/ forall s, s ∈ whitespace -> s ∉ list_ascii_of_string value.
Proof.
  unfold domain_name_validator. destruct value as [|c rest]; simpl negb.
  - cbv iota. split; auto.
  - cbv iota zeta.
    destruct (existsb id _) eqn:He.
    + apply existsb_whitespace in He as (s & Hs & Hv).
      split; [discriminate|]. intros [H|H]; [discriminate|].
      destruct (H s Hs Hv).
    + split; [|reflexivity]. intros _. right. intros s Hs Hv.
      assert (Ht : existsb id
                     (map (fun s => contains s (String c rest)) whitespace)
                   = true) by (apply existsb_whitespace; eauto).
      congruence.
Qed.

End validator_facts.

(** X3.  [domain_name_validator] returns exactly for the empty value and for
    the values that hold none of the six characters of [string.whitespace];
    every other value raises: the check rejects nothing but whitespace. *)
Theorem domain_name_validator_returns_iff (value : string) :
  domain_name_validator value = Returns
  <-> value = ""
      \/ forall s, s ∈ whitespace -> s ∉ list_ascii_of_string value.
Proof. apply domain_name_validator_iff. Qed.

(** X4.  The [domain] field accepts a value exactly when the value is empty,
    or holds no whitespace, holds two dot-separated label-like segments
    somewhere and is at most 100 characters long.  The pattern is searched,
    not anchored: a value the pattern check passes still passes it with any
    text put before and after. *)
Theorem domain_field_accepts_iff (value : string) :
  (domain_errors value = []
   <-> value = ""
       \/ ((forall s, s ∈ whitespace -> s ∉ list_ascii_of_string value)
           /\ two_segments (list_ascii_of_string value)
           /\ String.length value <= 100))
  /\ (forall message code pre post,
        RegexValidator domain_regex message code value = Returns ->
        RegexValidator domain_regex message code (pre +:+ value +:+ post)
          = Returns).
Proof.
  split.
  - unfold domain_errors, run_validators.
    destruct value as [|c rest]; [split; auto|]. simpl negb. cbv iota.
    rewrite filter_failures_nil. unfold domain_validators. simpl map.
    rewrite !Forall_cons, domain_name_validator_iff.
    unfold RegexValidator, MaxLengthValidator.
    rewrite <- search_domain_regex.
    split.
    + intros (Hw & Hr & Hl & _). right.
      destruct Hw as [Hw|Hw]; [discriminate|]. split; [exact Hw|]. split.
      * destruct (search domain_regex _); [reflexivity | discriminate].
      * destruct (Nat.ltb_spec 100 (String.length (String c rest)));
          [discriminate | lia].
    + intros [Hv|(Hw & Hs & Hl)]; [discriminate|].
      split; [right; exact Hw|]. split; [rewrite Hs; reflexivity|].
      split; [|constructor].
      destruct (Nat.ltb_spec 100 (String.length (String c rest)));
        [lia | reflexivity].
  - intros message code pre post. unfold RegexValidator.
    destruct (search domain_regex (list_ascii_of_string value)) eqn:Hs;
      [|discriminate].
    intros _. apply search_domain_regex in Hs.
    rewrite !list_ascii_of_string_app.
    rewrite (proj2 (search_domain_regex _) (two_segments_context _ _ _ Hs)).
    reflexivity.
Qed.

Lemma domain_name_validator_returns_iff_witness :
  domain_name_validator "example.com" = Returns.
Proof.
  apply (proj2 (domain_name_validator_returns_iff "example.com")). right.
  intros s Hs Hv. apply contains_elem_of in Hv.
  repeat (apply elem_of_cons in Hs as [->|Hs]; [discriminate Hv|]).
  inversion Hs.
Defined.

Lemma domain_field_accepts_iff_witness :
  domain_errors "a.b" = []
  /\ RegexValidator domain_regex "Enter a valid 'domain'" "invalid" "!!a.b!!"
     = Returns.
Proof.
  destruct (domain_field_accepts_iff "a.b") as [Hiff Hctx]. split.
  - apply Hiff. right. split; [|split].
    + intros s Hs Hv. apply contains_elem_of in Hv.
      repeat (apply elem_of_cons in Hs as [->|Hs]; [discriminate Hv|]).
      inversion Hs.
    + apply search_domain_regex. reflexivity.
    + simpl. lia.
  - apply (Hctx "Enter a valid 'domain'" "invalid" "!!" "!!"). reflexivity.
Defined.

Section row_order.

Context `{Laws : BackendLaws}.

Lemma get_site_or_none_Some rows sub r :
  get_site_or_none rows sub = Some r ->
  r ∈ rows /\ subdomain r = sub
  /\ forall s, s ∈ rows -> subdomain s = sub -> precedes r s = true.
Proof.
  unfold get_site_or_none, filter_subdomain. intros Hr.
  assert (Hin : r ∈ filter (fun s => subdomain s = sub) rows)
    by (apply elem_of_order_by, head_Some_elem_of, Hr).
  apply (list_elem_of_filter (fun s => subdomain s = sub)) in Hin as [Hsub Hin].
  split; [exact Hin|]. split; [exact Hsub|]. intros s Hs Hssub.
  apply (first_order_by _ r Hr).
  apply (list_elem_of_filter (fun s => subdomain s = sub)). auto.
Qed.

Lemma get_site_or_none_None rows sub :
  get_site_or_none rows sub = None ->
  forall s, s ∈ rows -> subdomain s <> sub.
Proof.
  unfold get_site_or_none, filter_subdomain, first. intros Hnone s Hs Hsub.
  assert (Hin : s ∈ order_by precedes (filter (fun s => subdomain s = sub) rows)).
  { apply elem_of_order_by, (list_elem_of_filter (fun s => subdomain s = sub)).
    auto. }
  destruct (order_by precedes _); [inversion Hin | discriminate Hnone].
Qed.

Lemma precedes_both a b :
  precedes a b = true -> precedes b a = true -> pk a = pk b.
Proof.
  unfold precedes.
  destruct (domain_leb (domain a) (domain b)) eqn:Hab,
           (domain_leb (domain b) (domain a)) eqn:Hba; simpl;
    try discriminate.
  - intros H1 H2. apply Nat.leb_le in H1, H2. lia.
  - destruct (domain_leb_total (domain a) (domain b)); congruence.
Qed.

End row_order.

(** X5.  With unique primary keys, the site [get_site_or_none] returns does
    not depend on the order in which the table holds its rows. *)
Theorem get_site_or_none_row_order `{Laws : BackendLaws}
    (rows rows' : list Site) (sub : string) :
  rows ≡ₚ rows' ->
  (forall a b, a ∈ rows -> b ∈ rows -> pk a = pk b -> a = b) ->
  get_site_or_none rows sub = get_site_or_none rows' sub.
Proof.
  intros Hperm Hunique.
  destruct (get_site_or_none rows sub) as [r|] eqn:Hr,
           (get_site_or_none rows' sub) as [r'|] eqn:Hr'.
  - apply get_site_or_none_Some in Hr as (Hin & Hsub & Hbest).
    apply get_site_or_none_Some in Hr' as (Hin' & Hsub' & Hbest').
    rewrite <- Hperm in Hin'. f_equal. apply Hunique; try assumption.
    apply precedes_both; [apply Hbest | apply Hbest']; try assumption.
    rewrite <- Hperm. assumption.
  - apply get_site_or_none_Some in Hr as (Hin & Hsub & _).
    rewrite Hperm in Hin.
    destruct (get_site_or_none_None _ _ Hr' r Hin Hsub).
  - apply get_site_or_none_Some in Hr' as (Hin' & Hsub' & _).
    rewrite <- Hperm in Hin'.
    destruct (get_site_or_none_None _ _ Hr r' Hin' Hsub').
  - reflexivity.
Qed.

Lemma get_site_or_none_row_order_witness :
  @get_site_or_none nulls_lowest sample_rows "acme"
  = @get_site_or_none nulls_lowest (reverse sample_rows) "acme".
Proof.
  apply (@get_site_or_none_row_order nulls_lowest nulls_lowest_laws).
  - symmetry. apply reverse_Permutation.
  - intros a b Ha Hb.
    repeat (apply elem_of_cons in Ha as [->|Ha]);
      repeat (apply elem_of_cons in Hb as [->|Hb]);
      try (inversion Ha); try (inversion Hb);
      try reflexivity; discriminate.
Defined.

(* ===================================================================== *)
(** * Part VI: further properties of [urlresolvers.py] *)
(* ===================================================================== *)

(** X6.  The two definitions of [url_sites] build the same node for a
    callable view and for a list or tuple of three items, and raise the same
    configuration error for the empty view name. *)
Theorem url_sites_agree (regex : string) (view : pyvalue)
    (kwargs : option (gmap string string)) (name : option string)
    (prefix : string) :
  callable view = true
  \/ (exists urlconf app ns, list_or_tuple view = Some [urlconf; app; ns])
  \/ view = PyStr "" ->
  with_RegexPattern.url_sites regex view kwargs name prefix
  = without_RegexPattern.url_sites regex view kwargs name prefix.
Proof.
  unfold with_RegexPattern.url_sites, without_RegexPattern.url_sites.
  intros [Hc|[(urlconf & app & ns & Hl)| ->]]; [| |reflexivity].
  - destruct view; try discriminate. reflexivity.
  - destruct view; try discriminate; injection Hl as ->; reflexivity.
Qed.

Lemma url_sites_agree_witness :
  with_RegexPattern.url_sites "^blog/"
    (PyTuple [PyModule "blog.urls"; PyStr "blog"; PyStr "blog"]) None None ""
  = without_RegexPattern.url_sites "^blog/"
      (PyTuple [PyModule "blog.urls"; PyStr "blog"; PyStr "blog"]) None None "".
Proof.
  apply url_sites_agree. right. left. eexists _, _, _. reflexivity.
Defined.

Section prefix_facts.

Lemma append_inj_r a b c : a +:+ c = b +:+ c -> a = b.
Proof.
  intros H. apply (f_equal list_ascii_of_string) in H.
  rewrite !list_ascii_of_string_app in H. apply app_inv_tail in H.
  apply (f_equal string_of_list_ascii) in H.
  rewrite !string_of_list_ascii_of_string in H. exact H.
Qed.

Lemma get_path_prefix_truthy site : truthy (_get_path_prefix site) = true.
Proof.
  unfold _get_path_prefix. destruct site as [site|]; [|reflexivity].
  destruct (truthy (path_prefix site)) eqn:Ht; [exact Ht | reflexivity].
Qed.

End prefix_facts.

(** X7.  The prefix is never empty, and two contexts have the same site
    regex exactly when they have the same prefix: tenants with different
    prefixes never share the pattern their routes start with. *)
Theorem site_regex_injective (site1 site2 : option Site) :
  _get_path_prefix site1 <> ""
  /\ (SiteRegexURLResolver_regex site1 = SiteRegexURLResolver_regex site2
      <-> _get_path_prefix site1 = _get_path_prefix site2).
Proof.
  split.
  - pose proof (get_path_prefix_truthy site1) as Ht.
    destruct (_get_path_prefix site1); [discriminate Ht | discriminate].
  - unfold SiteRegexURLResolver_regex. cbv zeta. split; [|intros ->; reflexivity].
    destruct (decide (_get_path_prefix site1 <> "_")) as [H1|H1],
             (decide (_get_path_prefix site2 <> "_")) as [H2|H2].
    + intros [= H].
      change (_get_path_prefix site1 +:+ "/" = _get_path_prefix site2 +:+ "/")
        in H.
      apply append_inj_r in H. exact H.
    + intros [= H]. change (_get_path_prefix site1 +:+ "/" = "") in H.
      destruct (_get_path_prefix site1); discriminate H.
    + intros [= H]. change ("" = _get_path_prefix site2 +:+ "/") in H.
      destruct (_get_path_prefix site2); discriminate H.
    + intros _. destruct (decide (_get_path_prefix site1 = "_")) as [->|Hn];
        [|contradiction].
      destruct (decide (_get_path_prefix site2 = "_")) as [->|Hn];
        [reflexivity | contradiction].
Qed.

Section cached_reads.

Variable site : option Site.
Variable populate : ref -> M unit.

Lemma namespace_dict_with_cached self h o table :
  h !! self = Some o ->
  _namespace_dict o !! _get_path_prefix site = Some table ->
  namespace_dict_with site populate self h = Done table h.
Proof.
  intros Ho Ht. unfold namespace_dict_with, bind, get, ret. rewrite Ho, Ht.
  destruct (decide (is_Some (Some table))) as [_|Hn];
    [|destruct Hn; eexists; reflexivity].
  rewrite Ho, Ht. reflexivity.
Qed.

Lemma app_dict_with_cached self h o table :
  h !! self = Some o -> _app_dict o !! _get_path_prefix site = Some table ->
  app_dict_with site populate self h = Done table h.
Proof.
  intros Ho Ht. unfold app_dict_with, bind, get, ret. rewrite Ho, Ht.
  destruct (decide (is_Some (Some table))) as [_|Hn];
    [|destruct Hn; eexists; reflexivity].
  rewrite Ho, Ht. reflexivity.
Qed.

End cached_reads.

(** X8.  Once a build under the current prefix has returned, the resolver
    is marked populated and the namespace and application accessors return
    the tables that build stored, with any fuel and so without building,
    and leave the heap unchanged. *)
Theorem tables_cached_after_build (site : option Site) (fuel : nat)
    (self : ref) (h h' : gmap ref RegexURLResolver) (o : RegexURLResolver) :
  h !! self = Some o -> populating o = false ->
  _populate site fuel self h = Done tt h' ->
  exists o' namespaces apps,
    h' !! self = Some o' /\ _populated o' = true
    /\ _namespace_dict o' !! _get_path_prefix site = Some namespaces
    /\ _app_dict o' !! _get_path_prefix site = Some apps
    /\ (forall fuel', namespace_dict site fuel' self h' = Done namespaces h')
    /\ (forall fuel', app_dict site fuel' self h' = Done apps h').
Proof.
  intros Ho Hp Hrun.
  apply (populate_Done _ _ _ _ _ _ Ho Hp) in Hrun
    as (fuel' & lookups & namespaces & apps & h2 & o2 & _ & _ & Ho2 & ->).
  eexists _, namespaces, apps.
  split; [apply lookup_insert_eq|]. split; [reflexivity|].
  split; [apply lookup_insert_eq|]. split; [apply lookup_insert_eq|]. split.
  - intros fuel''. eapply namespace_dict_with_cached;
      [apply lookup_insert_eq | apply lookup_insert_eq].
  - intros fuel''. eapply app_dict_with_cached;
      [apply lookup_insert_eq | apply lookup_insert_eq].
Qed.

Lemma tables_cached_after_build_witness :
  exists h' namespaces apps,
    _populate None 1 0 namespaced_self_including_heap = Done tt h'
    /\ namespace_dict None 0 0 h' = Done namespaces h'
    /\ app_dict None 0 0 h' = Done apps h'
    /\ apps !! "app" = Some ["lang"].
Proof.
  destruct (_populate None 1 0 namespaced_self_including_heap)
    as [[] h'| | |] eqn:Hrun; try (vm_compute in Hrun; discriminate Hrun).
  destruct (tables_cached_after_build None 1 0 namespaced_self_including_heap
              h' _ eq_refl eq_refl Hrun)
    as (o' & namespaces & apps & Ho' & _ & _ & Ha & Hns & Happs).
  exists h', namespaces, apps. split; [reflexivity|].
  split; [apply Hns|]. split; [apply Happs|].
  vm_compute in Hrun. injection Hrun as <-.
  vm_compute in Ho'. injection Ho' as <-.
  vm_compute in Ha. injection Ha as <-. reflexivity.
Defined.

(** ** Builds in progress *)

Section undisturbed_facts.

Variable site : option Site.

Lemma builds_undisturbed_refl h : builds_undisturbed h h.
Proof. intros r o Ho Hp. exists o. auto. Qed.

Lemma builds_undisturbed_trans h1 h2 h3 :
  builds_undisturbed h1 h2 -> builds_undisturbed h2 h3 ->
  builds_undisturbed h1 h3.
Proof.
  intros H12 H23 r o Ho Hp.
  destruct (H12 r o Ho Hp) as (o2 & Ho2 & Hp2 & E1 & E2 & E3).
  destruct (H23 r o2 Ho2 Hp2) as (o3 & Ho3 & Hp3 & F1 & F2 & F3).
  exists o3. repeat split; congruence.
Qed.

Lemma builds_undisturbed_insert h self o o' :
  h !! self = Some o ->
  (populating o = true ->
   populating o' = true /\ _reverse_dict o' = _reverse_dict o
   /\ _namespace_dict o' = _namespace_dict o /\ _app_dict o' = _app_dict o) ->
  builds_undisturbed h (<[self := o']> h).
Proof.
  intros Ho Hsame r oy Hy Hp. destruct (decide (r = self)) as [->|Hne].
  - rewrite Ho in Hy. injection Hy as <-. exists o'.
    rewrite lookup_insert_eq. split; [reflexivity | auto].
  - exists oy. rewrite lookup_insert_ne by congruence. auto.
Qed.

Lemma undisturbed_strs h self o strs :
  h !! self = Some o ->
  builds_undisturbed h (<[self := add_callback_strs strs o]> h).
Proof. intros Ho. apply (builds_undisturbed_insert h self o _ Ho). auto. Qed.

(** A build, however it ends, leaves alone every resolver whose build is in
    progress. *)
Lemma undisturbed_populate fuel self :
  steps builds_undisturbed (_populate site fuel self).
Proof.
  apply steps_populate.
  - apply builds_undisturbed_refl.
  - apply builds_undisturbed_trans.
  - intros h r o strs. apply undisturbed_strs.
  - intros h r o Ho _. apply (builds_undisturbed_insert h r o _ Ho). auto.
  - intros populate h r o h2 o2 lookups namespaces apps Ho Hp _ H12 Ho2 y oy Hy
      Hfy.
    assert (Hne : y <> r) by (intros ->; congruence).
    destruct (H12 y oy) as (oy' & Hy' & Hrest); [|exact Hfy|].
    + rewrite lookup_insert_ne by congruence. exact Hy.
    + exists oy'. rewrite lookup_insert_ne by congruence. auto.
Qed.

Lemma undisturbed_loop fuel self patterns acc :
  steps builds_undisturbed (loop site (_populate site fuel) self patterns acc).
Proof.
  apply steps_loop.
  - apply builds_undisturbed_refl.
  - apply builds_undisturbed_trans.
  - intros h r o strs. apply undisturbed_strs.
  - intros r. apply undisturbed_populate.
Qed.

(** A build that raises does so out of its loop. *)
Lemma populate_Raise fuel self h o e h' :
  h !! self = Some o -> populating o = false ->
  _populate site fuel self h = Raise e h' ->
  exists fuel',
    loop site (_populate site fuel') self (rev (url_patterns o)) ([], ∅, ∅)
      (<[self := set_populating true o]> h) = Raise e h'.
Proof.
  intros Ho Hp. rewrite populate_unfold, Ho, Hp.
  destruct fuel as [|fuel]; [discriminate|]. unfold populate_body. intros H.
  apply bind_Raise in H as [H|([] & h1 & Hm & H)].
  { unfold modify in H. rewrite Ho in H. discriminate H. }
  apply modify_Done in Hm as (o0 & Ho0 & ->).
  rewrite Ho in Ho0. injection Ho0 as <-.
  apply bind_Raise in H as [H|(o1 & h1 & Hg & H)].
  { unfold get in H. rewrite lookup_insert_eq in H. discriminate H. }
  apply get_Done in Hg as [Ho1 ->].
  rewrite lookup_insert_eq in Ho1. injection Ho1 as <-.
  change (url_patterns (set_populating true o)) with (url_patterns o) in H.
  apply bind_Raise in H as [H|([[lookups namespaces] apps] & h2 & _ & H)].
  - exists fuel. exact H.
  - unfold modify in H. destruct (h2 !! self); discriminate H.
Qed.

(** The accessor of a resolver that is being built and has nothing cached
    for the prefix. *)
Lemma reverse_dict_with_guarded fuel self h o :
  h !! self = Some o -> populating o = true ->
  _reverse_dict o !! _get_path_prefix site = None ->
  reverse_dict_with site (_populate site fuel) self h
  = Raise (KeyError (_get_path_prefix site)) h.
Proof.
  intros Ho Hp Hnone. unfold reverse_dict_with, bind, get, raise.
  rewrite Ho, Hnone.
  destruct (decide (is_Some None)) as [[? ?]|_]; [discriminate|].
  rewrite (populate_guarded site fuel self h o Ho Hp), Ho, Hnone. reflexivity.
Qed.

End undisturbed_facts.

(** X9.  Whatever a build or an accessor does before it returns or raises,
    every resolver whose own build is in progress keeps its flag and its
    three caches: nested work never stores into, or clears the flag of, a
    build higher up the stack. *)
Theorem in_progress_builds_undisturbed (site : option Site) (fuel : nat)
    (self : ref) :
  steps builds_undisturbed (_populate site fuel self)
  /\ steps builds_undisturbed (reverse_dict site fuel self)
  /\ steps builds_undisturbed (namespace_dict site fuel self)
  /\ steps builds_undisturbed (app_dict site fuel self).
Proof.
  split; [apply undisturbed_populate|].
  split; [|split].
  - apply steps_reverse_dict_with;
      [apply builds_undisturbed_refl | apply builds_undisturbed_trans
      | intros r; apply undisturbed_populate].
  - apply steps_namespace_dict_with;
      [apply builds_undisturbed_refl | apply builds_undisturbed_trans
      | intros r; apply undisturbed_populate].
  - apply steps_app_dict_with;
      [apply builds_undisturbed_refl | apply builds_undisturbed_trans
      | intros r; apply undisturbed_populate].
Qed.

Lemma in_progress_builds_undisturbed_witness :
  exists e h' o',
    _populate acme 3 0 building_heap = Raise e h'
    /\ h' !! 1 = Some o' /\ populating o' = true /\ _reverse_dict o' = ∅.
Proof.
  destruct (_populate acme 3 0 building_heap) as [|e h'| |] eqn:Hrun;
    try (vm_compute in Hrun; discriminate Hrun).
  destruct (proj1 (in_progress_builds_undisturbed acme 3 0) building_heap h'
              (Raise_exits _ _ _ Hrun) 1
              (set_populating true sample_site_resolver) eq_refl eq_refl)
    as (o' & Ho' & Hp' & Hr & _).
  exists e, h', o'. auto.
Defined.

Lemma static_kept_loop site fuel self patterns acc :
  steps (pointwise same_static)
    (loop site (_populate site fuel) self patterns acc).
Proof.
  apply steps_loop.
  - exact (pointwise_refl same_static same_static_refl).
  - exact (pointwise_trans same_static same_static_trans).
  - intros h r o strs Ho.
    apply (pointwise_insert same_static same_static_refl _ _ _ _ Ho).
    repeat split.
  - intros r. apply static_kept.
Qed.

(** X10.  A build that passes the guard and raises has stored nothing: the
    three caches of its resolver are what they were, the flag is left set,
    and from then on every [_populate] on that resolver returns at once
    without building and [reverse_dict] raises [KeyError] for every prefix
    that was not cached before. *)
Theorem failed_build_is_permanent (site : option Site) (fuel : nat)
    (self : ref) (h h' : gmap ref RegexURLResolver) (o : RegexURLResolver)
    (e : error) :
  h !! self = Some o -> populating o = false ->
  _populate site fuel self h = Raise e h' ->
  exists o',
    h' !! self = Some o'
    /\ _reverse_dict o' = _reverse_dict o
    /\ _namespace_dict o' = _namespace_dict o
    /\ _app_dict o' = _app_dict o
    /\ (forall site' fuel', _populate site' fuel' self h' = Done tt h')
    /\ (forall site' fuel',
          _reverse_dict o !! _get_path_prefix site' = None ->
          reverse_dict site' fuel' self h'
          = Raise (KeyError (_get_path_prefix site')) h').
Proof.
  intros Ho Hp Hrun.
  apply (populate_Raise _ _ _ _ _ _ _ Ho Hp) in Hrun as (fuel' & Hloop).
  apply Raise_exits, undisturbed_loop in Hloop.
  destruct (Hloop self (set_populating true o)) as (o' & Ho' & Hp' & E1 & E2 & E3);
    [apply lookup_insert_eq | reflexivity |].
  exists o'. split; [exact Ho'|]. split; [exact E1|]. split; [exact E2|].
  split; [exact E3|]. split.
  - intros site' fuel''. apply (populate_guarded _ _ _ _ _ Ho' Hp').
  - intros site' fuel'' Hnone.
    apply (reverse_dict_with_guarded _ _ _ _ _ Ho' Hp').
    rewrite E1. exact Hnone.
Qed.

Lemma failed_build_is_permanent_witness :
  exists h',
    _populate None 1 0 self_including_heap = Raise (KeyError "_") h'
    /\ _populate acme 5 0 h' = Done tt h'
    /\ reverse_dict acme 5 0 h' = Raise (KeyError "acme") h'.
Proof.
  destruct (_populate None 1 0 self_including_heap) as [|e h'| |] eqn:Hrun;
    try (vm_compute in Hrun; discriminate Hrun).
  destruct (failed_build_is_permanent None 1 0 self_including_heap h'
              self_including e eq_refl eq_refl Hrun)
    as (o' & _ & _ & _ & _ & Hnoop & Hkey).
  exists h'. split; [|split; [apply Hnoop | apply Hkey; reflexivity]].
  vm_compute in Hrun. injection Hrun as <- _. reflexivity.
Defined.

(** X11.  A resolver that includes itself without a namespace cannot be
    built for a prefix it has nothing cached for: with no amount of fuel
    does the build return. *)
Theorem anonymous_self_include_never_builds (site : option Site) (fuel : nat)
    (self : ref) (h h' : gmap ref RegexURLResolver) (o : RegexURLResolver) :
  h !! self = Some o -> populating o = false ->
  _reverse_dict o !! _get_path_prefix site = None ->
  Resolver self ∈ url_patterns o -> truthy_opt (namespace o) = false ->
  _populate site fuel self h <> Done tt h'.
Proof.
  intros Ho Hp Hnone Hin Hanon Hrun.
  apply (populate_Done_table _ _ _ _ _ _ Ho Hp) in Hrun
    as (fuel' & lookups & namespaces & apps & h2 & o' & Hloop & _).
  assert (Hin' : Resolver self ∈ rev (url_patterns o)).
  { apply list_elem_of_In, in_rev. rewrite rev_involutive.
    apply list_elem_of_In, Hin. }
  apply list_elem_of_split in Hin' as (l1 & l2 & Hsplit).
  rewrite Hsplit in Hloop.
  apply loop_app in Hloop as ([[la na] aa] & hi & Hfirst & Hloop).
  apply loop_cons in Hloop as ([[lb nb] ab] & hj & Hvisit & _).
  pose proof (undisturbed_loop _ _ _ _ _ _ _ (Done_exits _ _ _ Hfirst)) as Hund.
  pose proof (static_kept_loop _ _ _ _ _ _ _ (Done_exits _ _ _ Hfirst)) as Hst.
  destruct (Hund self (set_populating true o)) as (oi & Hoi & Hpi & E1 & _);
    [apply lookup_insert_eq | reflexivity |].
  destruct (Hst self (set_populating true o)) as (oi' & Hoi' & _ & _ & _ & Hns & _);
    [apply lookup_insert_eq|].
  rewrite Hoi in Hoi'. injection Hoi' as <-.
  apply visit_Resolver_Done in Hvisit as (ov & Hov & Hcases).
  rewrite Hoi in Hov. injection Hov as <-.
  rewrite Hns in Hcases. simpl in Hcases. rewrite Hanon in Hcases.
  destruct Hcases as [[Hc _]|(_ & table & h3 & h4 & Ht & _)]; [discriminate|].
  rewrite (reverse_dict_with_guarded _ _ _ _ _ Hoi Hpi) in Ht;
    [discriminate Ht|].
  rewrite E1. exact Hnone.
Qed.

Lemma anonymous_self_include_never_builds_witness :
  _populate None 9 0 self_including_heap
  <> Done tt self_including_heap.
Proof.
  apply (anonymous_self_include_never_builds None 9 0 self_including_heap
           self_including_heap self_including);
    try reflexivity.
  apply list_elem_of_here.
Defined.


Lemma sample_heap_well_founded : well_founded_graph (fun r => 1 - r) sample_heap.
Proof.
  intros r o c Hr Hc. unfold sample_heap in Hr.
  apply lookup_insert_Some in Hr as [[<- <-]|[Hne Hr]].
  - apply list_elem_of_singleton in Hc as [= ->].
    split; [eexists; reflexivity | simpl; lia].
  - apply lookup_singleton_Some in Hr as [<- <-].
    repeat (apply elem_of_cons in Hc as [Hc|Hc]; [discriminate Hc|]).
    inversion Hc.
Qed.

Lemma sample_heap_idle bound : idle_below (fun r => 1 - r) bound sample_heap.
Proof.
  intros r o Hr _. unfold sample_heap in Hr.
  apply lookup_insert_Some in Hr as [[<- <-]|[Hne Hr]]; [reflexivity|].
  apply lookup_singleton_Some in Hr as [<- <-]. reflexivity.
Qed.


(** ** Leaves, namespaces and applications *)

Section table_facts.

Variable site : option Site.
Variable populate : ref -> M unit.

(** A leaf is visited without calling anything. *)
Lemma visit_Pattern_returns self p lookups namespaces apps h o :
  h !! self = Some o ->
  exists lookups',
    visit site populate self (Pattern p) (lookups, namespaces, apps) h
    = Done (lookups', namespaces, apps)
        (<[self := add_callback_strs {[lookup_str p]} o]> h).
Proof.
  intros Ho. simpl. unfold bind, modify, ret. rewrite Ho. eauto.
Qed.

Lemma entries_under_cons key p leaves :
  entries_under key (p :: leaves)
  = (if decide (ByCallback (callback p) = key) then [leaf_entry p] else [])
    ++ (if decide (name p = None) then []
        else if decide (ByName (default "" (name p)) = key)
             then [leaf_entry p] else [])
    ++ entries_under key leaves.
Proof. unfold entries_under. simpl. rewrite <- app_assoc. reflexivity. Qed.

(** A run of leaves returns, touches only the callback strings of [self],
    appends the tuples of the leaves in order and leaves the namespace and
    application accumulators alone. *)
Lemma loop_leaves self leaves : forall lookups namespaces apps h,
  is_Some (h !! self) ->
  exists lookups' h',
    loop site populate self (map Pattern leaves) (lookups, namespaces, apps) h
    = Done (lookups', namespaces, apps) h'
    /\ is_Some (h' !! self)
    /\ (forall r, r <> self -> h' !! r = h !! r)
    /\ (forall o, h !! self = Some o ->
          exists o', h' !! self = Some o'
            /\ _reverse_dict o' = _reverse_dict o
            /\ _namespace_dict o' = _namespace_dict o
            /\ _app_dict o' = _app_dict o
            /\ populating o' = populating o)
    /\ forall key,
         getlist key lookups' = getlist key lookups ++ entries_under key leaves.
Proof.
  induction leaves as [|p leaves IH]; intros lookups namespaces apps h [o Ho].
  - exists lookups, h. split; [reflexivity|]. split; [eauto|].
    split; [reflexivity|]. split; [eauto 10|].
    intros key. symmetry. apply app_nil_r.
  - destruct (visit_Pattern_returns self p lookups namespaces apps h o Ho)
      as [l1 Hv].
    destruct (IH l1 namespaces apps
                (<[self := add_callback_strs {[lookup_str p]} o]> h))
      as (l2 & h2 & Hloop & Hself & Hframe & Hkeep & Hlist);
      [rewrite lookup_insert_eq; eauto|].
    exists l2, h2. split; [|split; [exact Hself|split; [|split]]].
    + change (map Pattern (p :: leaves))
        with (Pattern p :: map Pattern leaves).
      cbn [loop]. unfold bind. rewrite Hv. exact Hloop.
    + intros r Hne. rewrite Hframe by exact Hne.
      apply lookup_insert_ne. congruence.
    + intros o0 Ho0. rewrite Ho in Ho0. injection Ho0 as <-.
      destruct (Hkeep _ (lookup_insert_eq _ _ _))
        as (o' & Ho' & E1 & E2 & E3 & E4).
      exists o'. auto.
    + intros key.
      rewrite Hlist, (visit_leaf_getlist _ _ _ _ _ _ _ _ _ _ _ _ key Hv),
        entries_under_cons, <- !app_assoc.
      reflexivity.
Qed.

(** What visiting a resolver does to the namespace and application
    accumulators. *)
Lemma visit_Resolver_acc self r lookups namespaces apps h lookups' namespaces'
    apps' h' :
  visit site populate self (Resolver r) (lookups, namespaces, apps) h
    = Done (lookups', namespaces', apps') h' ->
  exists o, h !! r = Some o /\
    ((truthy_opt (namespace o) = true
      /\ namespaces'
         = <[default "" (namespace o)
             := (strip_caret (regex_pattern site o), r)]> namespaces
      /\ apps' = (if truthy_opt (app_name o)
                  then setdefault_append (default "" (app_name o))
                         (default "" (namespace o)) apps
                  else apps))
     \/ (truthy_opt (namespace o) = false
         /\ exists child_namespaces child_apps,
              namespaces'
              = merge_namespaces (strip_caret (regex_pattern site o))
                  child_namespaces namespaces
              /\ apps' = merge_apps child_apps apps)).
Proof.
  simpl. intros H. apply bind_Done in H as (o & h0 & Hg & H).
  apply get_Done in Hg as [Ho ->]. exists o. split; [exact Ho|].
  apply bind_Done in H as ([[l1 n1] a1] & h3 & Hacc & H).
  apply bind_Done in H as (o3 & ? & _ & H).
  apply bind_Done in H as (? & ? & _ & H).
  apply bind_Done in H as (? & ? & _ & H).
  apply bind_Done in H as (? & ? & _ & H).
  injection H as -> -> -> _.
  destruct (truthy_opt (namespace o)).
  - left. injection Hacc as _ -> -> _. auto.
  - right. split; [reflexivity|].
    apply bind_Done in Hacc as (table & h1 & Ht & Hacc).
    apply bind_Done in Hacc as (l2 & h2 & Hmerge & Hacc).
    apply bind_Done in Hacc as (cn & ? & _ & Hacc).
    apply bind_Done in Hacc as (ca & ? & _ & Hacc).
    injection Hacc as _ <- <- _. eauto.
Qed.

Lemma apps_grow_refl apps : apps_grow apps apps.
Proof. intros app. exists []. symmetry. apply app_nil_r. Qed.

Lemma apps_grow_trans a1 a2 a3 :
  apps_grow a1 a2 -> apps_grow a2 a3 -> apps_grow a1 a3.
Proof.
  intros H12 H23 app. destruct (H12 app) as [m1 E1], (H23 app) as [m2 E2].
  exists (m1 ++ m2). rewrite E2, E1, app_assoc. reflexivity.
Qed.

Lemma apps_grow_setdefault_append app ns apps :
  apps_grow apps (setdefault_append app ns apps).
Proof.
  intros k. unfold setdefault_append. destruct (decide (app = k)) as [->|Hne].
  - rewrite lookup_insert_eq. exists [ns]. reflexivity.
  - rewrite lookup_insert_ne by exact Hne. exists []. symmetry. apply app_nil_r.
Qed.

Lemma apps_grow_merge_apps child apps : apps_grow apps (merge_apps child apps).
Proof.
  intros k. unfold merge_apps. rewrite lookup_union_with.
  destruct (apps !! k) as [mine|], (child !! k) as [theirs|]; simpl.
  - exists theirs. reflexivity.
  - exists []. symmetry. apply app_nil_r.
  - exists theirs. reflexivity.
  - exists []. reflexivity.
Qed.

Lemma visit_apps_grow self pattern lookups namespaces apps h lookups'
    namespaces' apps' h' :
  visit site populate self pattern (lookups, namespaces, apps) h
    = Done (lookups', namespaces', apps') h' ->
  apps_grow apps apps'.
Proof.
  destruct pattern as [p|r]; intros H.
  - apply visit_Pattern_Done in H as [[= _ _ ->] _]. apply apps_grow_refl.
  - apply visit_Resolver_acc in H
      as (o & _ & [(_ & _ & ->)|(_ & cn & ca & _ & ->)]).
    + destruct (truthy_opt (app_name o));
        [apply apps_grow_setdefault_append | apply apps_grow_refl].
    + apply apps_grow_merge_apps.
Qed.

Lemma loop_apps_grow self patterns : forall lookups namespaces apps h lookups'
    namespaces' apps' h',
  loop site populate self patterns (lookups, namespaces, apps) h
    = Done (lookups', namespaces', apps') h' ->
  apps_grow apps apps'.
Proof.
  induction patterns as [|pattern rest IH];
    intros lookups namespaces apps h lookups' namespaces' apps' h' H.
  - injection H as _ _ -> _. apply apps_grow_refl.
  - apply loop_cons in H as ([[l1 n1] a1] & h1 & Hv & H).
    eapply apps_grow_trans; [eapply visit_apps_grow, Hv | eapply IH, H].
Qed.

End table_facts.

Lemma loop_leaves_acc site populate self leaves :
  forall lookups namespaces apps h lookups' namespaces' apps' h',
  loop site populate self (map Pattern leaves) (lookups, namespaces, apps) h
    = Done (lookups', namespaces', apps') h' ->
  namespaces' = namespaces /\ apps' = apps.
Proof.
  induction leaves as [|p leaves IH];
    intros lookups namespaces apps h lookups' namespaces' apps' h' H.
  - injection H as _ -> -> _. auto.
  - change (map Pattern (p :: leaves)) with (Pattern p :: map Pattern leaves)
      in H.
    apply loop_cons in H as ([[l1 n1] a1] & h1 & Hv & H).
    apply visit_Pattern_Done in Hv as [[= _ -> ->] _].
    eapply IH, H.
Qed.



(** X14.  Namespaces resolve the other way round from names: when the first
    resolver a URLconf declares (leaves may come before it) carries a
    namespace, the stored namespace table maps that namespace to this
    resolver and its pattern without the leading ["^"], whatever is declared
    after it under the same namespace. *)
Theorem first_declared_namespace_wins (site : option Site) (fuel : nat)
    (self c : ref) (h h' : gmap ref RegexURLResolver)
    (o oc : RegexURLResolver) (leaves : list RegexURLPattern)
    (rest : list url_pattern) (ns : string) :
  h !! self = Some o -> populating o = false ->
  url_patterns o = map Pattern leaves ++ Resolver c :: rest ->
  h !! c = Some oc -> namespace oc = Some ns -> truthy ns = true ->
  _populate site fuel self h = Done tt h' ->
  exists o' table,
    h' !! self = Some o'
    /\ _namespace_dict o' !! _get_path_prefix site = Some table
    /\ table !! ns = Some (strip_caret (regex_pattern site oc), c).
Proof.
  intros Ho Hp Hpatterns Hoc Hns Htruthy Hrun.
  apply (populate_Done _ _ _ _ _ _ Ho Hp) in Hrun
    as (fuel' & lookups & namespaces & apps & h2 & o2 & _ & Hloop & Ho2 & ->).
  eexists _, namespaces. split; [apply lookup_insert_eq|].
  split; [apply lookup_insert_eq|].
  assert (Hrev : rev (url_patterns o)
                 = rev rest ++ Resolver c :: map Pattern (rev leaves)).
  { rewrite Hpatterns, rev_app_distr. simpl. rewrite <- app_assoc, map_rev.
    reflexivity. }
  rewrite Hrev in Hloop.
  apply loop_app in Hloop as ([[la na] aa] & hi & Hfirst & Hloop).
  apply loop_cons in Hloop as ([[lb nb] ab] & hj & Hvisit & Hleaves).
  assert (Hstatic : exists oi, hi !! c = Some oi /\ same_static oc oi).
  { pose proof (static_kept_loop _ _ _ _ _ _ _ (Done_exits _ _ _ Hfirst)) as Hst.
    destruct (decide (c = self)) as [->|Hne].
    - rewrite Ho in Hoc. injection Hoc as <-.
      destruct (Hst self (set_populating true o)) as (oi & Hoi & Hs);
        [apply lookup_insert_eq|].
      exists oi. split; [exact Hoi|].
      eapply same_static_trans; [|exact Hs]. repeat split.
    - apply Hst. rewrite lookup_insert_ne by congruence. exact Hoc. }
  destruct Hstatic as (oi & Hoi & Hcls & Hre & _ & Hnsi & _).
  apply visit_Resolver_acc in Hvisit as (ov & Hov & Hcases).
  rewrite Hoi in Hov. injection Hov as <-.
  assert (Hregex : regex_pattern site oi = regex_pattern site oc)
    by (unfold regex_pattern; rewrite Hcls, Hre; reflexivity).
  rewrite Hnsi, Hns, Hregex in Hcases. simpl in Hcases.
  rewrite Htruthy in Hcases.
  destruct Hcases as [(_ & -> & _)|(Hc & _)]; [|discriminate].
  apply loop_leaves_acc in Hleaves as [-> _].
  apply lookup_insert_eq.
Qed.

Lemma first_declared_namespace_wins_witness :
  exists h' o' table,
    _populate None 2 0 shop_heap = Done tt h'
    /\ h' !! 0 = Some o'
    /\ _namespace_dict o' !! "_" = Some table
    /\ table !! "shop" = Some ("eu/", 1).
Proof.
  destruct (_populate None 2 0 shop_heap) as [[] h'| | |] eqn:Hrun;
    try (vm_compute in Hrun; discriminate Hrun).
  destruct (first_declared_namespace_wins None 2 0 1 shop_heap h'
              (new_resolver RegexURLResolver_class "^/"
                 [Pattern profile_old; Resolver 1; Resolver 2] None None)
              (new_resolver RegexURLResolver_class "^eu/" [Pattern profile_new]
                 (Some "store") (Some "shop"))
              [profile_old] [Resolver 2] "shop"
              eq_refl eq_refl eq_refl eq_refl eq_refl eq_refl Hrun)
    as (o' & table & Ho' & Ht & Hns).
  exists h', o', table. auto.
Defined.

(** X15.  Every include that carries a namespace and an application name
    has its namespace listed under that application in the stored
    application table. *)
Theorem namespaced_include_listed_under_app (site : option Site) (fuel : nat)
    (self c : ref) (h h' : gmap ref RegexURLResolver)
    (o oc : RegexURLResolver) (ns app : string) :
  h !! self = Some o -> populating o = false ->
  Resolver c ∈ url_patterns o ->
  h !! c = Some oc -> namespace oc = Some ns -> truthy ns = true ->
  app_name oc = Some app -> truthy app = true ->
  _populate site fuel self h = Done tt h' ->
  exists o' table namespaces,
    h' !! self = Some o'
    /\ _app_dict o' !! _get_path_prefix site = Some table
    /\ table !! app = Some namespaces /\ ns ∈ namespaces.
Proof.
  intros Ho Hp Hin Hoc Hns Hnst Happ Happt Hrun.
  apply (populate_Done _ _ _ _ _ _ Ho Hp) in Hrun
    as (fuel' & lookups & namespaces & apps & h2 & o2 & _ & Hloop & Ho2 & ->).
  assert (Hin' : Resolver c ∈ rev (url_patterns o)).
  { apply list_elem_of_In, in_rev. rewrite rev_involutive.
    apply list_elem_of_In, Hin. }
  apply list_elem_of_split in Hin' as (l1 & l2 & Hsplit).
  rewrite Hsplit in Hloop.
  apply loop_app in Hloop as ([[la na] aa] & hi & Hfirst & Hloop).
  apply loop_cons in Hloop as ([[lb nb] ab] & hj & Hvisit & Hrest).
  assert (Hstatic : exists oi, hi !! c = Some oi /\ same_static oc oi).
  { pose proof (static_kept_loop _ _ _ _ _ _ _ (Done_exits _ _ _ Hfirst)) as Hst.
    destruct (decide (c = self)) as [->|Hne].
    - rewrite Ho in Hoc. injection Hoc as <-.
      destruct (Hst self (set_populating true o)) as (oi & Hoi & Hs);
        [apply lookup_insert_eq|].
      exists oi. split; [exact Hoi|].
      eapply same_static_trans; [|exact Hs]. repeat split.
    - apply Hst. rewrite lookup_insert_ne by congruence. exact Hoc. }
  destruct Hstatic as (oi & Hoi & _ & _ & _ & Hnsi & Happi & _).
  apply visit_Resolver_acc in Hvisit as (ov & Hov & Hcases).
  rewrite Hoi in Hov. injection Hov as <-.
  rewrite Hnsi, Happi, Hns, Happ in Hcases. simpl in Hcases.
  rewrite Hnst, Happt in Hcases.
  destruct Hcases as [(_ & _ & ->)|(Hc & _)]; [|discriminate].
  destruct (loop_apps_grow _ _ _ _ _ _ _ _ _ _ _ _ Hrest app) as [more Hmore].
  unfold setdefault_append in Hmore. rewrite lookup_insert_eq in Hmore.
  simpl in Hmore.
  destruct (apps !! app) as [listed|] eqn:Hlisted.
  - eexists _, apps, listed. split; [apply lookup_insert_eq|].
    split; [apply lookup_insert_eq|]. split; [exact Hlisted|].
    simpl in Hmore. rewrite Hmore. set_solver.
  - simpl in Hmore. destruct (default [] (aa !! app)); discriminate Hmore.
Qed.

Lemma namespaced_include_listed_under_app_witness :
  exists h' o' table namespaces,
    _populate None 2 0 shop_heap = Done tt h'
    /\ h' !! 0 = Some o'
    /\ _app_dict o' !! "_" = Some table
    /\ table !! "store" = Some namespaces /\ "shop" ∈ namespaces.
Proof.
  destruct (_populate None 2 0 shop_heap) as [[] h'| | |] eqn:Hrun;
    try (vm_compute in Hrun; discriminate Hrun).
  destruct (namespaced_include_listed_under_app None 2 0 2 shop_heap h'
              (new_resolver RegexURLResolver_class "^/"
                 [Pattern profile_old; Resolver 1; Resolver 2] None None)
              (new_resolver RegexURLResolver_class "^us/" [Pattern profile_new]
                 (Some "store") (Some "shop"))
              "shop" "store" eq_refl eq_refl
              ltac:(apply list_elem_of_further, list_elem_of_further,
                      list_elem_of_here)
              eq_refl eq_refl eq_refl eq_refl eq_refl Hrun)
    as (o' & table & namespaces & Ho' & Ht & Hl & Hin).
  exists h', o', table, namespaces. auto.
Defined.

Section callback_strs_facts.

Variable site : option Site.

Lemma strs_kept_refl o : strs_kept o o.
Proof. unfold strs_kept. set_solver. Qed.

Lemma strs_kept_trans o1 o2 o3 :
  strs_kept o1 o2 -> strs_kept o2 o3 -> strs_kept o1 o3.
Proof. unfold strs_kept. set_solver. Qed.

Lemma strs_kept_add o strs : strs_kept o (add_callback_strs strs o).
Proof. unfold strs_kept. simpl. set_solver. Qed.

Lemma strs_kept_populate fuel self :
  steps (pointwise strs_kept) (_populate site fuel self).
Proof.
  apply pointwise_populate.
  - apply strs_kept_refl.
  - apply strs_kept_trans.
  - apply strs_kept_add.
  - intros o b. unfold strs_kept. reflexivity.
  - intros o lookups namespaces apps. unfold strs_kept. reflexivity.
Qed.

Lemma strs_kept_loop fuel self patterns acc :
  steps (pointwise strs_kept)
    (loop site (_populate site fuel) self patterns acc).
Proof.
  apply steps_loop.
  - exact (pointwise_refl strs_kept strs_kept_refl).
  - exact (pointwise_trans strs_kept strs_kept_trans).
  - intros h r o strs Ho.
    apply (pointwise_insert strs_kept strs_kept_refl _ _ _ _ Ho).
    apply strs_kept_add.
  - intros r. apply strs_kept_populate.
Qed.

End callback_strs_facts.

(** X16.  No resolver ever loses a callback string in a build, however the
    build ends; and after a build that returns, the callback strings of the
    resolver hold the lookup string of each of its leaves. *)
Theorem callback_strs_collected (site : option Site) (fuel : nat) (self : ref)
    (h h' : gmap ref RegexURLResolver) :
  (exits (_populate site fuel self h) h' -> pointwise strs_kept h h')
  /\ (forall o p,
        h !! self = Some o -> populating o = false ->
        Pattern p ∈ url_patterns o ->
        _populate site fuel self h = Done tt h' ->
        exists o', h' !! self = Some o' /\ lookup_str p ∈ _callback_strs o').
Proof.
  split; [apply strs_kept_populate|].
  intros o p Ho Hp Hin Hrun.
  apply (populate_Done _ _ _ _ _ _ Ho Hp) in Hrun
    as (fuel' & lookups & namespaces & apps & h2 & o2 & _ & Hloop & Ho2 & ->).
  eexists. split; [apply lookup_insert_eq|]. simpl.
  assert (Hin' : Pattern p ∈ rev (url_patterns o)).
  { apply list_elem_of_In, in_rev. rewrite rev_involutive.
    apply list_elem_of_In, Hin. }
  apply list_elem_of_split in Hin' as (l1 & l2 & Hsplit).
  rewrite Hsplit in Hloop.
  apply loop_app in Hloop as ([[la na] aa] & hi & _ & Hloop).
  apply loop_cons in Hloop as ([[lb nb] ab] & hj & Hvisit & Hrest).
  apply visit_Pattern_Done in Hvisit as [_ (oi & Hoi & ->)].
  pose proof (strs_kept_loop _ _ _ _ _ _ _ (Done_exits _ _ _ Hrest)) as Hkept.
  destruct (Hkept self _ (lookup_insert_eq _ _ _)) as (o2' & Ho2' & Hsub).
  rewrite Ho2 in Ho2'. injection Ho2' as <-.
  apply Hsub. simpl. set_solver.
Qed.

Lemma callback_strs_collected_witness :
  exists h' o',
    _populate acme 1 1 sample_heap = Done tt h'
    /\ h' !! 1 = Some o' /\ "views.profile_old" ∈ _callback_strs o'.
Proof.
  destruct (_populate acme 1 1 sample_heap) as [[] h'| | |] eqn:Hrun;
    try (vm_compute in Hrun; discriminate Hrun).
  destruct (proj2 (callback_strs_collected acme 1 1 sample_heap h')
              sample_site_resolver profile_old eq_refl eq_refl
              ltac:(apply list_elem_of_here) Hrun) as (o' & Ho' & Hin).
  exists h', o'. auto.
Defined.

(** ** The root URLconf made of [site_patterns] *)

Section keys_facts.

Lemma keys_appendlist key value d :
  keys (appendlist key value d)
  = if decide (key ∈ keys d) then keys d else keys d ++ [key].
Proof.
  induction d as [|[k vs] d IH].
  - cbn. rewrite decide_False by (inversion 1). reflexivity.
  - cbn [appendlist]. destruct (decide (k = key)) as [->|Hne].
    + change (keys ((key, vs ++ [value]) :: d)) with (key :: keys d).
      change (keys ((key, vs) :: d)) with (key :: keys d).
      rewrite decide_True by apply list_elem_of_here. reflexivity.
    + change (keys ((k, vs) :: appendlist key value d))
        with (k :: keys (appendlist key value d)).
      change (keys ((k, vs) :: d)) with (k :: keys d).
      rewrite IH. destruct (decide (key ∈ keys d)) as [Hin|Hn].
      * rewrite decide_True by (apply list_elem_of_further, Hin). reflexivity.
      * rewrite decide_False; [reflexivity|].
        intros Hin. apply elem_of_cons in Hin as [->|Hin];
          [congruence | contradiction].
Qed.

Lemma NoDup_keys_appendlist key value d :
  NoDup (keys d) -> NoDup (keys (appendlist key value d)).
Proof.
  intros Hd. rewrite keys_appendlist. destruct (decide _) as [_|Hn];
    [exact Hd|].
  apply NoDup_app. split; [exact Hd|]. split; [|apply NoDup_singleton].
  intros x Hx Hk. apply list_elem_of_singleton in Hk as ->. contradiction.
Qed.

Lemma getlist_not_in_keys key (d : MultiValueDict) :
  key ∉ keys d -> getlist key d = [].
Proof.
  induction d as [|[k vs] d IH]; simpl; [reflexivity|]. intros Hn.
  destruct (decide (k = key)) as [->|Hne].
  - destruct Hn. apply list_elem_of_here.
  - apply IH. intros Hin. apply Hn, list_elem_of_further, Hin.
Qed.

Lemma loop_leaves_NoDup site populate self leaves :
  forall lookups namespaces apps h lookups' namespaces' apps' h',
  loop site populate self (map Pattern leaves) (lookups, namespaces, apps) h
    = Done (lookups', namespaces', apps') h' ->
  NoDup (keys lookups) -> NoDup (keys lookups').
Proof.
  induction leaves as [|p leaves IH];
    intros lookups namespaces apps h lookups' namespaces' apps' h' H Hd.
  - injection H as -> _ _ _. exact Hd.
  - change (map Pattern (p :: leaves)) with (Pattern p :: map Pattern leaves)
      in H.
    apply loop_cons in H as ([[l1 n1] a1] & h1 & Hv & H).
    apply visit_Pattern_Done in Hv as [[= -> _ _] _].
    eapply IH; [exact H|].
    destruct (name p); repeat apply NoDup_keys_appendlist; exact Hd.
Qed.

End keys_facts.

Section site_patterns_facts.

Variable site : option Site.

(** The build of a resolver that holds only leaves. *)
Lemma leaf_only_returns fuel self h o leaves :
  h !! self = Some o -> populating o = false ->
  url_patterns o = map Pattern leaves ->
  exists h' o' table,
    _populate site (S fuel) self h = Done tt h'
    /\ h' !! self = Some o' /\ same_static o o' /\ populating o' = false
    /\ _reverse_dict o' !! _get_path_prefix site = Some table
    /\ NoDup (keys table)
    /\ (forall key, getlist key table = entries_under key (rev leaves))
    /\ _namespace_dict o' !! _get_path_prefix site = Some ∅
    /\ _app_dict o' !! _get_path_prefix site = Some ∅
    /\ forall r, r <> self -> h' !! r = h !! r.
Proof.
  intros Ho Hp Hpatterns.
  destruct (loop_leaves site (_populate site fuel) self (rev leaves) [] ∅ ∅
              (<[self := set_populating true o]> h))
    as (lookups & h2 & Hloop & [o2 Ho2] & Hframe & _ & Hlist);
    [rewrite lookup_insert_eq; eauto|].
  pose proof (loop_leaves_NoDup _ _ _ _ _ _ _ _ _ _ _ _ Hloop (NoDup_nil_2))
    as Hnodup.
  pose proof (static_kept_loop _ _ _ _ _ _ _ (Done_exits _ _ _ Hloop)) as Hst.
  destruct (Hst self _ (lookup_insert_eq _ _ _)) as (o2' & Ho2' & Hs2).
  rewrite Ho2 in Ho2'. injection Ho2' as <-.
  rewrite map_rev, <- Hpatterns in Hloop.
  exists (<[self := store_tables (_get_path_prefix site) lookups ∅ ∅ o2]> h2).
  eexists _, lookups. split.
  - rewrite populate_unfold, Ho, Hp.
    apply (populate_body_returns _ _ _ _ _ _ _ _ _ _ Ho Hloop Ho2).
  - split; [apply lookup_insert_eq|]. split.
    { eapply same_static_trans; [|eapply same_static_trans; [exact Hs2|]];
        repeat split. }
    split; [reflexivity|]. split; [apply lookup_insert_eq|].
    split; [exact Hnodup|]. split; [exact Hlist|].
    split; [apply lookup_insert_eq|]. split; [apply lookup_insert_eq|].
    intros r Hne. rewrite lookup_insert_ne by congruence.
    rewrite Hframe by exact Hne. apply lookup_insert_ne. congruence.
Qed.

(** Merging from a child whose table is cached reads that table once per
    name and changes nothing. *)
Lemma merge_lookups_cached populate s os table parent_pat p_pattern kw h :
  h !! s = Some os -> _reverse_dict os !! _get_path_prefix site = Some table ->
  forall names lookups, NoDup names ->
  exists lookups',
    merge_lookups site populate s parent_pat p_pattern kw names lookups h
    = Done lookups' h
    /\ forall key,
         getlist key lookups'
         = getlist key lookups
           ++ (if decide (key ∈ names)
               then merged_entry parent_pat p_pattern kw <$> getlist key table
               else []).
Proof.
  intros Hs Ht. induction names as [|name names IH]; intros lookups Hnd.
  - exists lookups. split; [reflexivity|]. intros key.
    destruct (decide (key ∈ [])) as [Hin|_]; [inversion Hin|].
    symmetry. apply app_nil_r.
  - apply NoDup_cons in Hnd as [Hnotin Hnd].
    destruct (IH (foldl (fun lk e =>
                           appendlist name
                             (merged_entry parent_pat p_pattern kw e) lk)
                    lookups (getlist name table)) Hnd) as (l' & Hrun & Hlist).
    exists l'. split.
    + cbn [merge_lookups]. unfold bind.
      rewrite (reverse_dict_with_cached site populate s h os table Hs Ht).
      exact Hrun.
    + intros key. rewrite Hlist, getlist_foldl_appendlist.
      destruct (decide (name = key)) as [->|Hne].
      * destruct (decide (key ∈ names)) as [Hin|_]; [contradiction|].
        destruct (decide (key ∈ key :: names)) as [_|Hn];
          [apply app_nil_r | destruct Hn; apply list_elem_of_here].
      * destruct (decide (key ∈ names)) as [Hin|Hn],
                 (decide (key ∈ name :: names)) as [Hin'|Hn'];
          try reflexivity.
        -- destruct Hn'. apply list_elem_of_further, Hin.
        -- apply elem_of_cons in Hin' as [->|Hin']; [congruence|contradiction].
Qed.

End site_patterns_facts.

Lemma merged_entry_prefixed site e :
  merged_entry (SiteRegexURLResolver_regex site)
    (strip_caret (SiteRegexURLResolver_regex site)) ∅ e
  = prefixed_entry site e.
Proof.
  destruct e as [[b pat] defaults]. unfold merged_entry, prefixed_entry.
  rewrite strip_caret_site_regex, (left_id_L ∅ (∪)). reflexivity.
Qed.



(** X18.  For every leaf of an include without a namespace, built over
    sound tables, the parent's table holds under the leaf's keys a tuple
    whose pattern is the include's pattern (without its ["^"]) followed by
    the leaf's, and whose default arguments are the leaf's overridden by the
    default keyword arguments of the include. *)
Theorem include_defaults_override_leaf (site : option Site) (fuel : nat)
    (self s : ref) (h h' : gmap ref RegexURLResolver)
    (o os : RegexURLResolver) (p : RegexURLPattern) (key : lookup_key) :
  tables_sound (_get_path_prefix site) h ->
  h !! self = Some o -> populating o = false ->
  Resolver s ∈ url_patterns o -> h !! s = Some os ->
  truthy_opt (namespace os) = false ->
  Pattern p ∈ url_patterns os -> registers p key ->
  _populate site fuel self h = Done tt h' ->
  exists o' table bits defaults,
    h' !! self = Some o'
    /\ _reverse_dict o' !! _get_path_prefix site = Some table
    /\ (bits,
        strip_caret (regex_pattern site os) +:+ strip_caret (pattern_regex p),
        defaults) ∈ getlist key table
    /\ forall k,
         defaults !! k
         = match default_kwargs os !! k with
           | Some v => Some v
           | None => default_args p !! k
           end.
Proof.
  intros Hsound Ho Hp Hs Hos Hanon Hleaf Hkey Hrun.
  destruct (populate_merges site fuel self h o h' s os p key Hsound Ho Hp Hs
              Hos Hanon Hleaf Hkey Hrun) as (o' & table & Ho' & Ht & He).
  exists o', table. eexists _, _. split; [exact Ho'|]. split; [exact Ht|].
  split; [exact He|]. intros k. rewrite lookup_union.
  destruct (default_kwargs os !! k), (default_args p !! k); reflexivity.
Qed.

Lemma include_defaults_override_leaf_witness :
  exists h' o' table bits defaults,
    _populate None 2 0 localized_heap = Done tt h'
    /\ h' !! 0 = Some o'
    /\ _reverse_dict o' !! "_" = Some table
    /\ (bits, "en/page/$", defaults) ∈ getlist (ByName "page") table
    /\ defaults !! "lang" = Some "en" /\ defaults !! "page" = Some "1".
Proof.
  destruct (_populate None 2 0 localized_heap) as [[] h'| | |] eqn:Hrun;
    try (vm_compute in Hrun; discriminate Hrun).
  destruct (include_defaults_override_leaf None 2 0 1 localized_heap h'
              sample_root localized_include localized_leaf (ByName "page"))
    as (o' & table & bits & defaults & Ho' & Ht & Hin & Hd);
    [ apply tables_sound_fresh, map_Forall_insert_2;
        [reflexivity | apply map_Forall_singleton; reflexivity]
    | reflexivity | reflexivity | apply list_elem_of_here | reflexivity
    | reflexivity | apply list_elem_of_here
    | right; exists "page"; split; reflexivity | exact Hrun |].
  exists h', o', table, bits, defaults.
  split; [reflexivity|]. split; [exact Ho'|]. split; [exact Ht|].
  split; [exact Hin|]. split; [rewrite Hd | rewrite Hd]; reflexivity.
Defined.
